(** * BreachAlarm: a shallow embedding of [main.py]

    The program parses its command line with [argparse], validates the
    argument, and for an email address sends one GET request to the
    breach database and branches on the status code of the answer.

    Everything the program does to the outside world is recorded, in
    order, in a trace of events: the requests it sends, the lines it logs
    and the lines it prints.  The network is an oracle that answers the
    n-th request; Python exceptions are an explicit outcome. *)

From Stdlib Require Import ZArith NArith String Ascii List.
From stdpp Require Import base option list gmap.
Import ListNotations.

Local Open Scope Z_scope.

(** ** Python strings

    A [str] is a sequence of Unicode code points. *)

Module PyStr.

Definition char := N.
Definition str := list N.

(** A literal of the source, character by character. *)
Definition lit (s : string) : str :=
  List.map N_of_ascii (list_ascii_of_string s).

Definition chr (a : ascii) : char := N_of_ascii a.

Definition str_eqb (s t : str) : bool := bool_decide (s = t).

(** [s.startswith(p)] *)
Fixpoint startswith (s p : str) : bool :=
  match p, s with
  | [], _ => true
  | _ :: _, [] => false
  | a :: p', b :: s' => N.eqb a b && startswith s' p'
  end.

(** [c in s] *)
Definition contains (c : char) (s : str) : bool :=
  existsb (N.eqb c) s.

(** [s.split(c, 1)] when [c in s]: the text before the first [c] and
    the text after it. *)
Fixpoint split1 (c : char) (s : str) : str * str :=
  match s with
  | [] => ([], [])
  | x :: s' =>
      if N.eqb x c then ([], s')
      else let '(a, b) := split1 c s' in (x :: a, b)
  end.

(** [str.isspace] for one character: the white space table of CPython
    ([_PyUnicode_IsWhitespace]). *)
Definition isspace (c : char) : bool :=
  ((9 <=? c) && (c <=? 13) || (28 <=? c) && (c <=? 32)
   || (c =? 133) || (c =? 160) || (c =? 5760)
   || (8192 <=? c) && (c <=? 8202)
   || (c =? 8232) || (c =? 8233) || (c =? 8239) || (c =? 8287)
   || (c =? 12288))%N.

Fixpoint lstrip (s : str) : str :=
  match s with
  | [] => []
  | c :: s' => if isspace c then lstrip s' else s
  end.

(** [s.strip()] *)
Definition strip (s : str) : str := rev (lstrip (rev (lstrip s))).

End PyStr.
Export PyStr.

(** ** Regular expressions, as far as the two patterns in play need them

    Matching is by derivatives, so a pattern matches exactly when some
    way of reading the text against it exists, which is what the
    backtracking matcher of [re] decides for these patterns. *)

Module Re.

Inductive regex :=
| Void
| Eps
| Chars (p : char -> bool)
| Seq (r1 r2 : regex)
| Alt (r1 r2 : regex)
| Star (r : regex).

Definition Plus (r : regex) : regex := Seq r (Star r).
(** [r{2,}] *)
Definition AtLeast2 (r : regex) : regex := Seq r (Seq r (Star r)).
Definition Chr (a : ascii) : regex := Chars (N.eqb (chr a)).

Definition range (lo hi : ascii) (c : char) : bool :=
  (chr lo <=? c)%N && (c <=? chr hi)%N.
Definition one_of (s : string) (c : char) : bool :=
  contains c (lit s).

Fixpoint nullable (r : regex) : bool :=
  match r with
  | Void => false
  | Eps => true
  | Chars _ => false
  | Seq r1 r2 => nullable r1 && nullable r2
  | Alt r1 r2 => nullable r1 || nullable r2
  | Star _ => true
  end.

Fixpoint deriv (c : char) (r : regex) : regex :=
  match r with
  | Void => Void
  | Eps => Void
  | Chars p => if p c then Eps else Void
  | Seq r1 r2 =>
      if nullable r1
      then Alt (Seq (deriv c r1) r2) (deriv c r2)
      else Seq (deriv c r1) r2
  | Alt r1 r2 => Alt (deriv c r1) (deriv c r2)
  | Star r1 => Seq (deriv c r1) (Star r1)
  end.

(** The whole of [s] is read by [r]. *)
Fixpoint fullmatch (r : regex) (s : str) : bool :=
  match s with
  | [] => nullable r
  | c :: s' => fullmatch (deriv c r) s'
  end.

Fixpoint chomp (s : str) : option str :=
  match s with
  | [] => None
  | [c] => if (c =? 10)%N then Some [] else None
  | c :: s' => option_map (cons c) (chomp s')
  end.

(** [re.match("^" r "$", s)] as a boolean.  Without [re.MULTILINE],
    [$] holds at the end of the text and also just before a newline
    that ends the text. *)
Definition match_anchored (r : regex) (s : str) : bool :=
  fullmatch r s ||
  match chomp s with
  | Some s' => fullmatch r s'
  | None => false
  end.

End Re.

(** ** JSON values, as [response.json()] hands them to the program *)

#[warnings="-register-all"]
Inductive json :=
| JNull
| JBool (b : bool)
| JInt (n : Z)
| JFloat (literal : str)
| JStr (s : str)
| JList (l : list json)
| JDict (d : gmap str json).

(** ** Exceptions *)

Inductive type_error :=
| NotIterable (v : json)
| BadIndex (v : json).

Inductive exn :=
| ClientError (cause : str)      (* aiohttp.ClientError and its subclasses *)
| KeyError (key : str)
| TypeError (what : type_error)
| OtherException (cause : str)   (* any other subclass of Exception *)
| UnicodeEncodeError (object : str)   (* a text that stdout cannot encode *)
| KeyboardInterrupt
| SystemExit (code : Z).

Definition is_ClientError (e : exn) : bool :=
  match e with ClientError _ => true | _ => false end.

(** [isinstance(e, Exception)]: [KeyboardInterrupt] and [SystemExit]
    derive from [BaseException] only. *)
Definition is_Exception (e : exn) : bool :=
  match e with
  | KeyboardInterrupt | SystemExit _ => false
  | _ => true
  end.

(** ** The outside world

    Messages are kept as the name of their format string together with
    the values interpolated into it. *)

Inductive level := INFO | WARNING | ERROR.

Inductive message :=
| MsgFound (email : str) (breach_names : list json)
    (* "Email {email} found in breaches: {breach_names}" *)
| MsgNotFound (email : str)
    (* "Email {email} not found in any breaches." *)
| MsgRateLimit
    (* "Rate limit exceeded. Please wait and try again later." *)
| MsgStatus (status : Z)
    (* "Error checking HIBP: Status code {response.status}" *)
| MsgAiohttp (e : exn)
    (* "AIOHTTP error: {e}" *)
| MsgUnexpected (e : exn)
    (* "An unexpected error occurred: {e}" *)
| MsgSearchCode (search_term : str)
    (* "Searching code repositories for: {search_term}" *)
| MsgSearchCodePlaceholder (search_term : str)
    (* "Searching code repositories for: {search_term} (This feature is a
       placeholder and does not perform actual searching.)" *)
| MsgSearchPaste (search_term : str)
    (* "Searching paste sites for: {search_term}" *)
| MsgSearchPastePlaceholder (search_term : str)
    (* "Searching paste sites for: {search_term} (This feature is a
       placeholder and does not perform actual searching.)" *)
| MsgChecking (email : str)
    (* "Checking email: {self.email}" *)
| MsgSearchingOrg (org_name : str)
    (* "Searching for organization name: {self.org_name}" *)
| MsgSearchingTech (technology : str)
    (* "Searching for technology: {self.technology}" *)
| MsgProvide
    (* "Please provide an email address, organization name, or technology
       to search for." *)
| MsgNoTerm
    (* "No search term provided." *)
| MsgInvalidEmail
    (* "Invalid email address format." *)
| MsgOrgEmpty
    (* "Organization name cannot be empty." *)
| MsgTechEmpty
    (* "Technology name cannot be empty." *)
| MsgExiting.
    (* "\nExiting..." *)

(** What [argparse] writes: its help text, or a usage line and an error. *)
Inductive argparse_message :=
| ArgHelp
| ArgAmbiguous (option : str)
| ArgExpectedOne (option_string : str)
| ArgIgnoredExplicit (explicit_arg : str)
| ArgNotAllowedWith (option_string : str)
| ArgOneRequired
| ArgUnrecognized (extras : list str).

Inductive event :=
| Get (url : str) (headers : list (str * str))   (* session.get(url, headers=headers) *)
| Log (lv : level) (m : message)                 (* logging.info / warning / error / exception *)
| Print (m : message)                            (* print(...) *)
| Argparse (m : argparse_message)                (* written by the argument parser *)
| Traceback (e : exn).                           (* an exception nobody caught *)

Definition trace := list event.

Definition is_Get (ev : event) : bool :=
  match ev with Get _ _ => true | _ => false end.

(** The requests sent so far. *)
Definition requests (tr : trace) : list event := List.filter is_Get tr.

(** What a request meets: a response with a status code, whose body
    [await response.json()] either decodes or fails on, or a failure of
    the transport. *)
Record response := Response {
  status : Z;
  json_body : exn + json
}.

Inductive reply :=
| Responds (r : response)
| Fails (e : exn).

(** The network answers a request knowing how many requests came before it. *)
Definition network := nat -> str -> list (str * str) -> reply.

(** ** Computations: a trace threaded through, and exceptions *)

Inductive outcome (A : Type) :=
| Ret (a : A)
| Raise (e : exn).
Arguments Ret {A} a.
Arguments Raise {A} e.

Definition M (A : Type) : Type := trace -> outcome A * trace.

Definition ret {A} (a : A) : M A := fun tr => (Ret a, tr).

Definition bind {A B} (m : M A) (k : A -> M B) : M B :=
  fun tr =>
    match m tr with
    | (Ret a, tr') => k a tr'
    | (Raise e, tr') => (Raise e, tr')
    end.

Definition raise {A} (e : exn) : M A := fun tr => (Raise e, tr).

(** [try: body / except ...: handler]; a handler re-raises what no
    [except] clause names. *)
Definition try_except {A} (body : M A) (handler : exn -> M A) : M A :=
  fun tr =>
    match body tr with
    | (Ret a, tr') => (Ret a, tr')
    | (Raise e, tr') => handler e tr'
    end.

Definition emit (ev : event) : M unit := fun tr => (Ret tt, tr ++ [ev]).

Declare Scope py_scope.
Delimit Scope py_scope with py.
Notation "x <- m ;; k" := (bind m (fun x => k))
  (at level 100, m at next level, right associativity) : py_scope.
Notation "m ;; k" := (bind m (fun _ => k))
  (at level 100, right associativity) : py_scope.
Local Open Scope py_scope.

Definition result {A} (r : outcome A * trace) : outcome A := fst r.
Definition final {A} (r : outcome A * trace) : trace := snd r.

Module logging.
Definition info (m : message) : M unit := emit (Log INFO m).
Definition warning (m : message) : M unit := emit (Log WARNING m).
Definition error (m : message) : M unit := emit (Log ERROR m).
(** [logging.exception] logs at level ERROR and adds the traceback. *)
Definition exception (m : message) : M unit := emit (Log ERROR m).
End logging.

(** What [sys.stdout] can write.  Standard output is taken as Python
    opens it under a UTF-8 locale: encoding UTF-8, error handler
    [strict].  UTF-8 encodes every code point but the surrogates
    U+D800..U+DFFF, which a [str] holds when an argument of the command
    line was not valid UTF-8.  The log goes to [sys.stderr], whose error
    handler is [backslashreplace], so a log line is always written. *)
Definition encodable (s : str) : bool :=
  forallb (fun c => negb ((55296 <=? c) && (c <=? 57343))%N) s.

(** The text from the command line that a printed line holds: the search
    term of the two placeholder lines.  The other lines are constant or
    hold a status code or the text of an exception, which is the
    library's. *)
Definition printed_term (m : message) : str :=
  match m with
  | MsgSearchCodePlaceholder search_term => search_term
  | MsgSearchPastePlaceholder search_term => search_term
  | _ => []
  end.

(** [print(...)]: the line is encoded as a whole before anything is
    written, and the encoder raises on a text it cannot encode. *)
Definition print (m : message) : M unit :=
  if encodable (printed_term m)
  then emit (Print m)
  else raise (UnicodeEncodeError (printed_term m)).

(** ** What Python does with a JSON value *)

(** [for breach in data]: the elements of a list, the keys of a dict, the
    characters of a string; anything else cannot be iterated. *)
Definition iterate (data : json) : M (list json) :=
  match data with
  | JList l => ret l
  | JDict d => ret (List.map (fun kv => JStr (fst kv)) (map_to_list d))
  | JStr s => ret (List.map (fun c => JStr [c]) s)
  | _ => raise (TypeError (NotIterable data))
  end.

(** [breach[key]] for a string [key]. *)
Definition getitem (breach : json) (key : str) : M json :=
  match breach with
  | JDict d =>
      match d !! key with
      | Some v => ret v
      | None => raise (KeyError key)
      end
  | _ => raise (TypeError (BadIndex breach))
  end.

(** [[f(x) for x in l]]: left to right, stopping at the first exception. *)
Fixpoint comprehension {A B} (f : A -> M B) (l : list A) : M (list B) :=
  match l with
  | [] => ret []
  | x :: l' => y <- f x ;; ys <- comprehension f l' ;; ret (y :: ys)
  end.

(** ** class BreachAlarm *)

Section Program.

Variable net : network.

(** [async with session.get(url, headers=headers) as response] *)
Definition session_get (url : str) (headers : list (str * str)) : M response :=
  fun tr =>
    let tr' := tr ++ [Get url headers] in
    match net (length (requests tr)) url headers with
    | Responds r => (Ret r, tr')
    | Fails e => (Raise e, tr')
    end.

(** [await response.json()] *)
Definition response_json (r : response) : M json :=
  match json_body r with
  | inr data => ret data
  | inl e => raise e
  end.

Definition check_hibp (email : str) : M (option (list json)) :=
  try_except
    (let url := lit "https://haveibeenpwned.com/api/v3/breachedaccount/" ++ email in
     let headers := [(lit "hibp-api-key", lit "anonymous")] in
     response <- session_get url headers ;;
     if status response =? 200 then
       data <- response_json response ;;
       items <- iterate data ;;
       breach_names <- comprehension (fun breach => getitem breach (lit "Name")) items ;;
       logging.info (MsgFound email breach_names) ;;
       ret (Some breach_names)
     else if status response =? 404 then
       logging.info (MsgNotFound email) ;;
       ret None
     else if status response =? 429 then
       logging.warning MsgRateLimit ;;
       print MsgRateLimit ;;
       ret None
     else
       logging.error (MsgStatus (status response)) ;;
       print (MsgStatus (status response)) ;;
       ret None)
    (fun e =>
       if is_ClientError e then
         logging.error (MsgAiohttp e) ;;
         print (MsgAiohttp e) ;;
         ret None
       else if is_Exception e then
         logging.exception (MsgUnexpected e) ;;
         print (MsgUnexpected e) ;;
         ret None
       else raise e).

End Program.

(** ** The argument parser

    [argparse] as CPython 3.11 ships it, for parsers made of a help
    option and of options that store one string, some of them in one
    mutually exclusive group. *)

Module argparse.

Inductive dest := Email | OrgName | Technology.

Inductive action :=
| Help                (* -h, --help: nargs=0 *)
| Store (d : dest).   (* nargs=None: exactly one argument *)

Global Instance dest_eq_dec : EqDecision dest := ltac:(solve_decision).
Global Instance action_eq_dec : EqDecision action := ltac:(solve_decision).

(** What an attribute of the namespace can hold. *)
Inductive value :=
| PyNone
| PyStr (s : str)
| PyEmptyList.

Record Namespace := {
  email : value;
  org_name : value;
  technology : value
}.

Definition getattr (ns : Namespace) (d : dest) : value :=
  match d with
  | Email => email ns
  | OrgName => org_name ns
  | Technology => technology ns
  end.

Definition setattr (ns : Namespace) (d : dest) (v : value) : Namespace :=
  match d with
  | Email => {| email := v; org_name := org_name ns; technology := technology ns |}
  | OrgName => {| email := email ns; org_name := v; technology := technology ns |}
  | Technology => {| email := email ns; org_name := org_name ns; technology := v |}
  end.

(** [\d] of a [str] pattern: the decimal digits of Unicode 14, which
    come in runs of ten; these are the zeros. *)
Definition decimal_zeros : list N :=
  [48; 1632; 1776; 1984; 2406; 2534; 2662; 2790; 2918; 3046; 3174; 3302;
   3430; 3558; 3664; 3792; 3872; 4160; 4240; 6112; 6160; 6470; 6608; 6784;
   6800; 6992; 7088; 7232; 7248; 42528; 43216; 43264; 43472; 43504; 43600;
   44016; 65296; 66720; 68912; 69734; 69872; 69942; 70096; 70384; 70736;
   70864; 71248; 71360; 71472; 71904; 72016; 72784; 73040; 73120; 92768;
   92864; 93008; 120782; 120792; 120802; 120812; 120822; 123200; 123632;
   125264; 130032]%N.

Definition digit (c : char) : bool :=
  existsb (fun z => (z <=? c) && (c <? z + 10))%N decimal_zeros.

(** [_negative_number_matcher = re.compile(r'^-\d+$|^-\d*\.\d+$')] *)
Definition negative_number_matcher (s : str) : bool :=
  Re.match_anchored
    (Re.Alt (Re.Seq (Re.Chr "-") (Re.Plus (Re.Chars digit)))
            (Re.Seq (Re.Chr "-")
               (Re.Seq (Re.Star (Re.Chars digit))
                  (Re.Seq (Re.Chr ".") (Re.Plus (Re.Chars digit))))))
    s.

Record ArgumentParser := {
  option_string_actions : list (str * action);   (* in the order added *)
  has_negative_number_optionals : bool;
  group_actions : list action;                   (* the mutually exclusive group *)
  group_required : bool
}.

(** [argparse.ArgumentParser(...)]: a parser that knows [-h] and [--help]. *)
Definition new : ArgumentParser :=
  {| option_string_actions := [(lit "-h", Help); (lit "--help", Help)];
     has_negative_number_optionals := false;
     group_actions := [];
     group_required := false |}.

(** [parser.add_mutually_exclusive_group(required=...)] *)
Definition add_mutually_exclusive_group (required : bool) (p : ArgumentParser)
  : ArgumentParser :=
  {| option_string_actions := option_string_actions p;
     has_negative_number_optionals := has_negative_number_optionals p;
     group_actions := [];
     group_required := required |}.

(** [group.add_argument(o1, o2, dest=d)] *)
Definition add_argument (option_strings : list str) (d : dest) (p : ArgumentParser)
  : ArgumentParser :=
  {| option_string_actions :=
       option_string_actions p ++ List.map (fun o => (o, Store d)) option_strings;
     has_negative_number_optionals :=
       has_negative_number_optionals p || existsb negative_number_matcher option_strings;
     group_actions := group_actions p ++ [Store d];
     group_required := group_required p |}.

(** One command-line string read as an option: the action it names (or
    none, for an option the parser does not know), the option string,
    and the argument glued to it, if any. *)
Record option_tuple := OptionTuple {
  tuple_action : option action;
  option_string : str;
  explicit_arg : option str
}.

Inductive classified :=
| Positional
| Optional (t : option_tuple)
| Ambiguous.

(** The letters of [arg_strings_pattern]. *)
Inductive pattern :=
| A
| O (t : option_tuple)
| Dash.

(** An action with the strings it was given. *)
Inductive action_tuple :=
| TakeHelp
| TakeStore (d : dest) (option_string : str) (arg_string : str).

Record state := {
  namespace : Namespace;
  seen_non_default_actions : list action;
  extras : list str
}.

Section Parsing.

Variable parser : ArgumentParser.

Fixpoint lookup_option (l : list (str * action)) (s : str) : option action :=
  match l with
  | [] => None
  | (o, a) :: l' => if str_eqb o s then Some a else lookup_option l' s
  end.

(** [self._option_string_actions.get(s)] *)
Definition option_action (s : str) : option action :=
  lookup_option (option_string_actions parser) s.

Definition dash : char := chr "-".

(** [_get_option_tuples], for a string of two characters or more
    that starts with a dash. *)
Definition get_option_tuples (s : str) : list option_tuple :=
  match s with
  | _ :: c1 :: _ =>
      if (c1 =? dash)%N then
        let '(option_prefix, explicit) :=
          if contains (chr "=") s
          then let '(a, b) := split1 (chr "=") s in (a, Some b)
          else (s, None) in
        List.map (fun oa => OptionTuple (Some (snd oa)) (fst oa) explicit)
          (List.filter (fun oa => startswith (fst oa) option_prefix)
             (option_string_actions parser))
      else
        let short_option_prefix := firstn 2 s in
        let short_explicit_arg := skipn 2 s in
        flat_map
          (fun oa =>
             if str_eqb (fst oa) short_option_prefix
             then [OptionTuple (Some (snd oa)) (fst oa) (Some short_explicit_arg)]
             else if startswith (fst oa) s
             then [OptionTuple (Some (snd oa)) (fst oa) None]
             else [])
          (option_string_actions parser)
  | _ => []
  end.

(** [_parse_optional] *)
Definition parse_optional (arg_string : str) : classified :=
  match arg_string with
  | [] => Positional
  | c0 :: _ =>
      if negb (c0 =? dash)%N then Positional
      else
        match option_action arg_string with
        | Some a => Optional (OptionTuple (Some a) arg_string None)
        | None =>
            if (length arg_string =? 1)%nat then Positional
            else
              let before_equals :=
                if contains (chr "=") arg_string then
                  let '(o, explicit) := split1 (chr "=") arg_string in
                  match option_action o with
                  | Some a => Some (OptionTuple (Some a) o (Some explicit))
                  | None => None
                  end
                else None in
              match before_equals with
              | Some t => Optional t
              | None =>
                  match get_option_tuples arg_string with
                  | _ :: _ :: _ => Ambiguous
                  | [t] => Optional t
                  | [] =>
                      if negative_number_matcher arg_string
                         && negb (has_negative_number_optionals parser)
                      then Positional
                      else if contains (chr " ") arg_string then Positional
                      else Optional (OptionTuple None arg_string None)
                  end
              end
        end
  end.

(** The first loop of [_parse_known_args]: every string gets its
    letter, and everything after the first [--] is an argument. *)
Fixpoint classify (arg_strings : list str) : str + list (str * pattern) :=
  match arg_strings with
  | [] => inr []
  | arg_string :: rest =>
      if str_eqb arg_string (lit "--")
      then inr ((arg_string, Dash) :: List.map (fun a => (a, A)) rest)
      else
        match parse_optional arg_string with
        | Ambiguous => inl arg_string
        | Positional => sum_map id (cons (arg_string, A)) (classify rest)
        | Optional t => sum_map id (cons (arg_string, O t)) (classify rest)
        end
  end.

(** [parser.error(message)]: usage and message on stderr, exit status 2. *)
Definition error {T} (m : argparse_message) : M T :=
  (emit (Argparse m) ;; raise (SystemExit 2))%py.

(** The loop of [consume_optional] while an argument is glued to the
    option: a storing option takes it whole; [-h] followed by more
    letters stands for [-h] and then the option of the next letter.
    The result is the actions settled so far and, if the glued text
    ran out, the option that still waits for what follows. *)
Fixpoint with_explicit_arg (a : action) (o : str) (explicit : str)
  : argparse_message + (list action_tuple * option (action * str)) :=
  match a with
  | Store d => inr ([TakeStore d o explicit], None)
  | Help =>
      match o, explicit with
      | _ :: c1 :: _, e0 :: explicit' =>
          if (c1 =? dash)%N then inl (ArgIgnoredExplicit explicit)
          else
            let o' := [dash; e0] in
            match option_action o' with
            | None => inl (ArgIgnoredExplicit explicit)
            | Some a' =>
                match explicit' with
                | [] => inr ([TakeHelp], Some (a', o'))
                | _ :: _ =>
                    match with_explicit_arg a' o' explicit' with
                    | inl m => inl m
                    | inr (tuples, waiting) => inr (TakeHelp :: tuples, waiting)
                    end
                end
            end
      | _, _ => inl (ArgIgnoredExplicit explicit)
      end
  end.

(** An option with nothing glued to it matches its arguments among
    the strings that follow: none for [-h], one argument (an [A], not
    an option and not [--]) for a storing option.  The boolean tells
    whether the next string was taken. *)
Definition without_explicit_arg (a : action) (o : str) (following : list (str * pattern))
  : argparse_message + (list action_tuple * bool) :=
  match a with
  | Help => inr ([TakeHelp], false)
  | Store d =>
      match following with
      | (arg_string, A) :: _ => inr ([TakeStore d o arg_string], true)
      | _ => inl (ArgExpectedOne o)
      end
  end.

(** [consume_optional], for a known option. *)
Definition consume_optional (a : action) (o : str) (explicit : option str)
    (following : list (str * pattern))
  : argparse_message + (list action_tuple * bool) :=
  match explicit with
  | Some e =>
      match with_explicit_arg a o e with
      | inl m => inl m
      | inr (tuples, None) => inr (tuples, false)
      | inr (tuples, Some (a', o')) =>
          match without_explicit_arg a' o' following with
          | inl m => inl m
          | inr (more, took) => inr (tuples ++ more, took)
          end
      end
  | None => without_explicit_arg a o following
  end.

(** [_get_values] for one argument string and [nargs=None]: the
    first [--] among the strings is dropped before they are counted,
    and what is not exactly one string is stored as a list. *)
Definition get_values (arg_string : str) : value :=
  if str_eqb arg_string (lit "--") then PyEmptyList else PyStr arg_string.

Definition in_seen (a : action) (seen : list action) : bool :=
  bool_decide (a ∈ seen).

(** [action_conflicts.get(action, [])]: the other members of the group. *)
Definition action_conflicts (a : action) : list action :=
  if bool_decide (a ∈ group_actions parser)
  then List.filter (fun b => negb (bool_decide (b = a))) (group_actions parser)
  else [].

Definition take_action (t : action_tuple) (st : state) : M state :=
  match t with
  | TakeHelp =>
      (* print_help(); parser.exit() *)
      (emit (Argparse ArgHelp) ;; raise (SystemExit 0))%py
  | TakeStore d o arg_string =>
      let argument_values := get_values arg_string in
      let seen := seen_non_default_actions st ++ [Store d] in
      if existsb (fun c => in_seen c seen) (action_conflicts (Store d))
      then error (ArgNotAllowedWith o)
      else ret {| namespace := setattr (namespace st) d argument_values;
                  seen_non_default_actions := seen;
                  extras := extras st |}
  end.

Fixpoint take_actions (ts : list action_tuple) (st : state) : M state :=
  match ts with
  | [] => ret st
  | t :: ts' => (st' <- take_action t st ;; take_actions ts' st')%py
  end.

Definition add_extra (arg_string : str) (st : state) : state :=
  {| namespace := namespace st;
     seen_non_default_actions := seen_non_default_actions st;
     extras := extras st ++ [arg_string] |}.

(** The second loop of [_parse_known_args].  The parser has no
    positional argument, so a string that no option takes is an
    extra. *)
Fixpoint consume (items : list (str * pattern)) (st : state) : M state :=
  match items with
  | [] => ret st
  | (arg_string, O (OptionTuple (Some a) o explicit)) :: rest =>
      match consume_optional a o explicit rest with
      | inl m => error m
      | inr (tuples, took_next) =>
          (st' <- take_actions tuples st ;;
           match took_next, rest with
           | true, _ :: rest' => consume rest' st'
           | _, _ => consume rest st'
           end)%py
      end
  | (arg_string, _) :: rest => consume rest (add_extra arg_string st)
  end.

Definition defaults : state :=
  {| namespace := {| email := PyNone; org_name := PyNone; technology := PyNone |};
     seen_non_default_actions := [];
     extras := [] |}.

(** [parser.parse_known_args()]: the two loops, then the check that a
    required group was used. *)
Definition parse_known_args (arg_strings : list str) : M state :=
  match classify arg_strings with
  | inl arg_string => error (ArgAmbiguous arg_string)
  | inr items =>
      (st <- consume items defaults ;;
       if group_required parser
          && negb (existsb (fun a => in_seen a (seen_non_default_actions st))
                     (group_actions parser))
       then error ArgOneRequired
       else ret st)%py
  end.

(** [parser.parse_args()], on [sys.argv[1:]]. *)
Definition parse_args (arg_strings : list str) : M Namespace :=
  (st <- parse_known_args arg_strings ;;
   match extras st with
   | [] => ret (namespace st)
   | _ :: _ => error (ArgUnrecognized (extras st))
   end)%py.

End Parsing.

End argparse.

(** ** The rest of the program *)

Record BreachAlarm := {
  email : option str;
  org_name : option str;
  technology : option str
}.

(** [if self.x:] for an [Optional[str]]: the string, when there is one
    and it is not empty.  [None] and the empty string are both false. *)
Definition truthy (x : option str) : option str :=
  match x with
  | Some (c :: s) => Some (c :: s)
  | _ => None
  end.

(** [if args.x:] for an attribute of the namespace: the string it holds,
    when it holds one that is not empty.  [None], the empty string and
    the empty list are all false. *)
Definition truthy_str (v : argparse.value) : option str :=
  match v with
  | argparse.PyStr (c :: s) => Some (c :: s)
  | _ => None
  end.

(** [not s] for a string. *)
Definition is_empty (s : str) : bool :=
  match s with
  | [] => true
  | _ :: _ => false
  end.

(** [pattern = r"^[a-zA-Z0-9._%+-]+@[a-zA-Z0-9.-]+\.[a-zA-Z]{2,}$"] *)
Definition pattern : Re.regex :=
  let alpha c := Re.range "a" "z" c || Re.range "A" "Z" c in
  let alnum c := alpha c || Re.range "0" "9" c in
  Re.Seq (Re.Plus (Re.Chars (fun c => alnum c || Re.one_of "._%+-" c)))
    (Re.Seq (Re.Chr "@")
       (Re.Seq (Re.Plus (Re.Chars (fun c => alnum c || Re.one_of ".-" c)))
          (Re.Seq (Re.Chr ".")
             (Re.AtLeast2 (Re.Chars alpha))))).

Definition is_valid_email (email : str) : bool :=
  Re.match_anchored pattern email.

Definition sys_exit {T} (code : Z) : M T := raise (SystemExit code).

Definition setup_argparse : argparse.ArgumentParser :=
  let parser := argparse.new in
  let group := argparse.add_mutually_exclusive_group true parser in
  let group := argparse.add_argument [lit "-e"; lit "--email"] argparse.Email group in
  let group := argparse.add_argument [lit "-o"; lit "--org"] argparse.OrgName group in
  let group := argparse.add_argument [lit "-t"; lit "--tech"] argparse.Technology group in
  group.

Section Main.

Variable net : network.

Definition search_code_repositories (search_term : str) : M unit :=
  logging.info (MsgSearchCode search_term) ;;
  print (MsgSearchCodePlaceholder search_term).

Definition search_paste_sites (search_term : str) : M unit :=
  logging.info (MsgSearchPaste search_term) ;;
  print (MsgSearchPastePlaceholder search_term).

Definition run (self : BreachAlarm) : M unit :=
  match truthy (email self) with
  | Some self_email =>
      logging.info (MsgChecking self_email) ;;
      _ <- check_hibp net self_email ;;
      ret tt
  | None =>
      match truthy (org_name self) with
      | Some self_org_name =>
          logging.info (MsgSearchingOrg self_org_name) ;;
          search_code_repositories self_org_name ;;
          search_paste_sites self_org_name
      | None =>
          match truthy (technology self) with
          | Some self_technology =>
              logging.info (MsgSearchingTech self_technology) ;;
              search_code_repositories self_technology ;;
              search_paste_sites self_technology
          | None =>
              print MsgProvide ;;
              logging.warning MsgNoTerm
          end
      end
  end.

Definition main (argv : list str) : M unit :=
  let parser := setup_argparse in
  args <- argparse.parse_args parser argv ;;
  match truthy_str (argparse.email args) with
  | Some email =>
      (if negb (is_valid_email email)
       then print MsgInvalidEmail ;; sys_exit 1
       else ret tt) ;;
      let breach_alarm := {| email := Some email; org_name := None; technology := None |} in
      run breach_alarm
  | None =>
      match truthy_str (argparse.org_name args) with
      | Some org_name =>
          (if is_empty (strip org_name)
           then print MsgOrgEmpty ;; sys_exit 1
           else ret tt) ;;
          let breach_alarm := {| email := None; org_name := Some org_name; technology := None |} in
          run breach_alarm
      | None =>
          match truthy_str (argparse.technology args) with
          | Some technology =>
              (if is_empty (strip technology)
               then print MsgTechEmpty ;; sys_exit 1
               else ret tt) ;;
              let breach_alarm := {| email := None; org_name := None; technology := Some technology |} in
              run breach_alarm
          | None => ret tt
          end
      end
  end.

(** The process: [asyncio.run(main())] under the handler for
    [KeyboardInterrupt], and what the interpreter does with whatever
    else comes out.  The result is the exit status. *)
Definition program (argv : list str) (tr : trace) : Z * trace :=
  match main argv tr with
  | (Ret _, tr') => (0, tr')
  | (Raise KeyboardInterrupt, tr') => (0, tr' ++ [Print MsgExiting])
  | (Raise (SystemExit code), tr') => (code, tr')
  | (Raise e, tr') => (1, tr' ++ [Traceback e])
  end.

End Main.

(** ** Some runs *)

Definition always (r : reply) : network := fun _ _ _ => r.
Definition answers (st : Z) (data : json) : network :=
  always (Responds (Response st (inr data))).

Definition adobe_linkedin : json :=
  JList [JDict {[ lit "Name" := JStr (lit "Adobe") ]};
         JDict {[ lit "Name" := JStr (lit "LinkedIn") ]}].

(** ** The vocabulary of the specification *)

Module Spec.

Inductive ErrorKind :=
| InvalidInput
| RateLimited
| UpstreamError (status : Z)
| TransportError (cause : exn).

(** [Result<sequence of string | NotFound, ErrorKind>] *)
Inductive BreachResult :=
| Names (names : list json)
| NotFound
| Failed (kind : ErrorKind).

(** Percent-encoding of a string for use as one path segment: the
    unreserved characters stand for themselves, every other character
    becomes the bytes of its UTF-8 form, each written [%XX]. *)
Definition unreserved (c : char) : bool :=
  Re.range "a" "z" c || Re.range "A" "Z" c || Re.range "0" "9" c
  || Re.one_of "-._~" c.

Definition hex (n : N) : char :=
  nth (N.to_nat n) (lit "0123456789ABCDEF") (chr "0").

Definition percent (byte : N) : str :=
  [chr "%"; hex (byte / 16); hex (byte mod 16)]%N.

Definition utf8 (c : char) : list N :=
  (if c <? 128 then [c]
   else if c <? 2048 then [192 + c / 64; 128 + c mod 64]
   else if c <? 65536 then
     [224 + c / 4096; 128 + (c / 64) mod 64; 128 + c mod 64]
   else
     [240 + c / 262144; 128 + (c / 4096) mod 64;
      128 + (c / 64) mod 64; 128 + c mod 64])%N.

Definition url_encode (s : str) : str :=
  flat_map (fun c => if unreserved c then [c] else flat_map percent (utf8 c)) s.

End Spec.

(** ** The request and what comes back *)

Definition hibp_request (email : str) : event :=
  Get (lit "https://haveibeenpwned.com/api/v3/breachedaccount/" ++ email)
      [(lit "hibp-api-key", lit "anonymous")].

(** The answer the network gives to the request that [check_hibp] sends
    for [email] after the trace [tr]. *)
Definition answer (net : network) (email : str) (tr : trace) : reply :=
  net (length (requests tr))
      (lit "https://haveibeenpwned.com/api/v3/breachedaccount/" ++ email)
      [(lit "hibp-api-key", lit "anonymous")].

Definition has_name (item name : json) : Prop :=
  exists d, item = JDict d /\ d !! lit "Name" = Some name.

Definition lacks_name (item : json) : Prop :=
  exists d, item = JDict d /\ d !! lit "Name" = None.

Definition is_object (item : json) : Prop :=
  exists d, item = JDict d.

(** The line that reports a failed request. *)
Definition failure_message (e : exn) : message :=
  if is_ClientError e then MsgAiohttp e else MsgUnexpected e.


(** A computation that sends no request. *)
Definition quiet {A} (m : M A) : Prop :=
  forall tr, requests (final (m tr)) = requests tr.

Module ParserState.

Import argparse.

Abbreviation seen := seen_non_default_actions.

(** What holds of the parser's state between two options: an attribute
    is set exactly when its option was acted upon, and all options
    acted upon so far are one and the same storing option. *)
Record consistent (st : state) : Prop := {
  set_iff_seen : forall d, getattr (namespace st) d <> PyNone <-> Store d ∈ seen st;
  seen_agree : forall a b, a ∈ seen st -> b ∈ seen st -> a = b;
  help_not_seen : Help ∉ seen st
}.

(** How the parser gives up: the help text and status 0, or a usage
    error and status 2; one message either way. *)
Definition stops (tr : trace) (e : exn) (tr' : trace) : Prop :=
  (e = SystemExit 0 \/ e = SystemExit 2) /\ exists m, tr' = tr ++ [Argparse m].

Definition keeps {T} (P : T -> Prop) (tr : trace) (r : outcome T * trace) : Prop :=
  match r with
  | (Ret x, tr') => P x /\ tr' = tr
  | (Raise e, tr') => stops tr e tr'
  end.

(** A namespace with exactly one attribute set. *)
Definition exactly_one (ns : Namespace) : Prop :=
  exists d, getattr ns d <> PyNone /\ forall d', getattr ns d' <> PyNone -> d' = d.

End ParserState.

(** ** What a pattern reads, and the shape of an address *)

Module ReLang.

Import Re.

(** The texts a pattern reads in full. *)
Inductive matches : regex -> str -> Prop :=
| MEps : matches Eps []
| MChars p c : p c = true -> matches (Chars p) [c]
| MSeq r1 r2 s1 s2 : matches r1 s1 -> matches r2 s2 -> matches (Seq r1 r2) (s1 ++ s2)
| MAltL r1 r2 s : matches r1 s -> matches (Alt r1 r2) s
| MAltR r1 r2 s : matches r2 s -> matches (Alt r1 r2) s
| MStarNil r : matches (Star r) []
| MStarApp r s1 s2 : matches r s1 -> matches (Star r) s2 -> matches (Star r) (s1 ++ s2).

End ReLang.

(** [[a-zA-Z]] *)
Definition alpha_char (c : char) : bool :=
  Re.range "a" "z" c || Re.range "A" "Z" c.

(** [[a-zA-Z0-9._%+-]] *)
Definition local_char (c : char) : bool :=
  alpha_char c || Re.range "0" "9" c || Re.one_of "._%+-" c.

(** [[a-zA-Z0-9.-]] *)
Definition domain_char (c : char) : bool :=
  alpha_char c || Re.range "0" "9" c || Re.one_of ".-" c.

(** [local @ domain . tld], with a local part and a domain that are not
    empty and a last label of two letters or more. *)
Definition address (local domain tld : str) : str :=
  local ++ [chr "@"] ++ domain ++ [chr "."] ++ tld.

Definition address_parts (local domain tld : str) : Prop :=
  local <> [] /\ forallb local_char local = true
  /\ domain <> [] /\ forallb domain_char domain = true
  /\ (2 <= length tld)%nat /\ forallb alpha_char tld = true.

(** A character an accepted address can hold before its end. *)
Definition address_char (c : char) : bool :=
  local_char c || (c =? chr "@")%N.

(** How often [c] occurs in [s]. *)
Definition occurrences (c : char) (s : str) : nat :=
  length (List.filter (N.eqb c) s).


(** A JSON value with nothing to iterate over: [{}] or [""]. *)
Definition is_empty_container (data : json) : bool :=
  match data with
  | JDict d => bool_decide (d = ∅)
  | JStr [] => true
  | _ => false
  end.

(** A command-line string that does not start with a dash. *)
Definition plain (x : str) : bool :=
  match x with
  | [] => true
  | c :: _ => negb (c =? argparse.dash)%N
  end.

(** The option strings that [setup_argparse] gives to a destination. *)
Definition option_strings (d : argparse.dest) : list str :=
  match d with
  | argparse.Email => [lit "-e"; lit "--email"]
  | argparse.OrgName => [lit "-o"; lit "--org"]
  | argparse.Technology => [lit "-t"; lit "--tech"]
  end.

(** The namespace in which exactly [d] is set, to [v]. *)
Definition only (d : argparse.dest) (v : argparse.value) : argparse.Namespace :=
  argparse.setattr (argparse.namespace argparse.defaults) d v.


(** A computation that only adds events of one kind to the trace. *)
Definition emits {A} (P : event -> Prop) (m : M A) : Prop :=
  forall tr, exists evs, final (m tr) = tr ++ evs /\ Forall P evs.

(** Any event but the two lines of [run] for a missing search term. *)
Definition not_usage_prompt (ev : event) : Prop :=
  ev <> Print MsgProvide /\ ev <> Log WARNING MsgNoTerm.

(** The command line [o1 x1 o2 x2 ...] for pairs of an option string and
    its argument. *)
Definition argv_of (pairs : list (str * str)) : list str :=
  flat_map (fun p => [fst p; snd p]) pairs.

(** The same command line with the letter the parser gives each string,
    when every [o] is an option string of [d] and no [x] starts with a
    dash. *)
Definition items_of (d : argparse.dest) (pairs : list (str * str))
  : list (str * argparse.pattern) :=
  flat_map
    (fun p =>
       [(fst p,
         argparse.O (argparse.OptionTuple (Some (argparse.Store d)) (fst p) None));
        (snd p, argparse.A)])
    pairs.

(** The ways to write the option of a destination on the command line:
    the short option, the long option and the abbreviations of the long
    option that [argparse] accepts. *)
Definition short_option (d : argparse.dest) : str :=
  match d with
  | argparse.Email => lit "-e"
  | argparse.OrgName => lit "-o"
  | argparse.Technology => lit "-t"
  end.

Definition spellings (d : argparse.dest) : list str :=
  match d with
  | argparse.Email =>
      [lit "-e"; lit "--e"; lit "--em"; lit "--ema"; lit "--emai"; lit "--email"]
  | argparse.OrgName => [lit "-o"; lit "--o"; lit "--or"; lit "--org"]
  | argparse.Technology => [lit "-t"; lit "--t"; lit "--te"; lit "--tec"; lit "--tech"]
  end.

(** A command-line string gives the option of [d]: it is one of its
    spellings, a spelling followed by [=] and a text, or the short option
    with a text glued to it. *)
Definition gives (d : argparse.dest) (arg : str) : Prop :=
  arg ∈ spellings d
  \/ (exists o v, o ∈ spellings d /\ arg = o ++ [chr "="] ++ v)
  \/ (exists c t, arg = short_option d ++ c :: t).

(** A command-line string that the parser reads as the help option. *)
Definition is_help_option (arg : str) : bool :=
  match argparse.parse_optional setup_argparse arg with
  | argparse.Optional (argparse.OptionTuple (Some argparse.Help) _ _) => true
  | _ => false
  end.

(** The parser reads [arg] as the option of [d]. *)
Definition reads_as (d : argparse.dest) (arg : str) : Prop :=
  exists o explicit,
    argparse.parse_optional setup_argparse arg
    = argparse.Optional (argparse.OptionTuple (Some (argparse.Store d)) o explicit).

(** * Proofs *)

Lemma requests_app tr1 tr2 : requests (tr1 ++ tr2) = requests tr1 ++ requests tr2.
Proof. unfold requests. apply List.filter_app. Qed.

Lemma comprehension_names items names tr :
  Forall2 has_name items names ->
  comprehension (fun breach => getitem breach (lit "Name")) items tr = (Ret names, tr).
Proof.
  induction 1 as [| item name items names [d [-> Hd]] _ IH]; [reflexivity |].
  cbn [comprehension]. unfold bind at 1. cbn [getitem]. rewrite Hd.
  unfold ret at 1. unfold bind at 1. rewrite IH. reflexivity.
Qed.

Lemma comprehension_missing items tr :
  Forall is_object items ->
  Exists lacks_name items ->
  comprehension (fun breach => getitem breach (lit "Name")) items tr
  = (Raise (KeyError (lit "Name")), tr).
Proof.
  induction 1 as [| item items [d ->] _ IH]; intros Hex.
  - inversion Hex.
  - cbn [comprehension]. unfold bind at 1. cbn [getitem].
    destruct (d !! lit "Name") as [v |] eqn:Hd.
    + unfold ret at 1. unfold bind at 1. rewrite IH; [reflexivity |].
      inversion Hex as [? ? [d' [Heq Hd']] | ]; subst; [| assumption].
      injection Heq as <-. congruence.
    + reflexivity.
Qed.

(** Reading the names never touches the trace. *)
Lemma comprehension_trace items tr :
  final (comprehension (fun breach => getitem breach (lit "Name")) items tr) = tr.
Proof.
  revert tr. induction items as [| item items IH]; intros tr; [reflexivity |].
  cbn [comprehension]. unfold bind at 1.
  destruct item; try reflexivity. cbn [getitem].
  destruct (d !! lit "Name"); [| reflexivity].
  unfold ret at 1. unfold bind at 1. specialize (IH tr).
  destruct (comprehension _ items tr) as [[ys | e] tr'']; cbn in IH |- *; congruence.
Qed.

(** One step of [check_hibp]: the request goes out and the answer is
    what the network gives. *)
Ltac send_request H :=
  unfold check_hibp, try_except, bind at 1, session_get; cbv zeta;
  unfold answer in H; rewrite H; cbv beta iota; cbn [status json_body].

(** Running the straight-line part of a computation. *)
Ltac run_py :=
  repeat (unfold bind, ret, raise, iterate, response_json,
            logging.info, logging.warning, logging.error, logging.exception,
            print, emit;
          cbv beta iota;
          cbn [json_body status is_ClientError is_Exception
               printed_term encodable forallb]).

(** ** check_hibp, status by status *)

(** C1. A 200 response whose body is a list of objects that each carry a
    [Name]: [check_hibp] returns the values of [Name], in the order of the
    list, after one request and one INFO line. *)
Theorem check_hibp_200_returns_names
    (net : network) (email : str) (tr : trace) (items names : list json) :
  answer net email tr = Responds (Response 200 (inr (JList items))) ->
  Forall2 has_name items names ->
  check_hibp net email tr
  = (Ret (Some names),
     tr ++ [hibp_request email] ++ [Log INFO (MsgFound email names)]).
Proof.
  intros Hnet Hnames. send_request Hnet.
  cbn [Z.eqb Pos.eqb]. run_py.
  rewrite (comprehension_names items names _ Hnames). run_py.
  unfold hibp_request. rewrite <- app_assoc. reflexivity.
Qed.

(** The body [[{"Name":"Adobe"},{"Name":"LinkedIn"}]] for ["a@b.com"]. *)
Lemma check_hibp_adobe_linkedin :
  check_hibp (answers 200 adobe_linkedin) (lit "a@b.com") []
  = (Ret (Some [JStr (lit "Adobe"); JStr (lit "LinkedIn")]),
     [hibp_request (lit "a@b.com");
      Log INFO (MsgFound (lit "a@b.com") [JStr (lit "Adobe"); JStr (lit "LinkedIn")])]).
Proof.
  apply (check_hibp_200_returns_names (answers 200 adobe_linkedin) (lit "a@b.com") []
           [JDict {[ lit "Name" := JStr (lit "Adobe") ]};
            JDict {[ lit "Name" := JStr (lit "LinkedIn") ]}]).
  - reflexivity.
  - repeat constructor; eexists; (split; [reflexivity | apply lookup_singleton_eq]).
Defined.

(** C6. A 404 response: [check_hibp] returns [None] without raising, says
    so on one INFO line, and neither logs an error nor prints. *)
Theorem check_hibp_404_not_found
    (net : network) (email : str) (tr : trace) (body : exn + json) :
  answer net email tr = Responds (Response 404 body) ->
  check_hibp net email tr
  = (Ret None, tr ++ [hibp_request email] ++ [Log INFO (MsgNotFound email)]).
Proof.
  intros Hnet. send_request Hnet. cbn [Z.eqb Pos.eqb]. run_py.
  unfold hibp_request. rewrite <- app_assoc. reflexivity.
Qed.

Lemma check_hibp_404_run :
  check_hibp (answers 404 JNull) (lit "a@b.com") []
  = (Ret None,
     [hibp_request (lit "a@b.com"); Log INFO (MsgNotFound (lit "a@b.com"))]).
Proof.
  apply (check_hibp_404_not_found (answers 404 JNull) (lit "a@b.com") [] (inr JNull)).
  reflexivity.
Defined.

(** C10. A 200 response whose body is a list of objects of which one has
    no [Name]: the [KeyError] is caught, [check_hibp] returns [None] and
    not the names it had read, and reports the error. *)
Theorem check_hibp_200_missing_name
    (net : network) (email : str) (tr : trace) (items : list json) :
  answer net email tr = Responds (Response 200 (inr (JList items))) ->
  Forall is_object items ->
  Exists lacks_name items ->
  check_hibp net email tr
  = (Ret None,
     tr ++ [hibp_request email]
        ++ [Log ERROR (MsgUnexpected (KeyError (lit "Name")));
            Print (MsgUnexpected (KeyError (lit "Name")))]).
Proof.
  intros Hnet Hobj Hmiss. send_request Hnet.
  cbn [Z.eqb Pos.eqb]. run_py.
  rewrite (comprehension_missing items _ Hobj Hmiss). run_py.
  unfold hibp_request. rewrite <- !app_assoc. reflexivity.
Qed.

Lemma check_hibp_missing_name_run :
  check_hibp
    (answers 200 (JList [JDict {[ lit "Name" := JStr (lit "Adobe") ]};
                         JDict {[ lit "Title" := JStr (lit "LinkedIn") ]}]))
    (lit "a@b.com") []
  = (Ret None,
     [hibp_request (lit "a@b.com");
      Log ERROR (MsgUnexpected (KeyError (lit "Name")));
      Print (MsgUnexpected (KeyError (lit "Name")))]).
Proof.
  apply (check_hibp_200_missing_name
           (answers 200 (JList [JDict {[ lit "Name" := JStr (lit "Adobe") ]};
                                JDict {[ lit "Title" := JStr (lit "LinkedIn") ]}]))
           (lit "a@b.com") []
           [JDict {[ lit "Name" := JStr (lit "Adobe") ]};
            JDict {[ lit "Title" := JStr (lit "LinkedIn") ]}]).
  - reflexivity.
  - repeat constructor; eexists; reflexivity.
  - apply Exists_cons_tl, Exists_cons_hd. eexists. split; [reflexivity |].
    apply lookup_singleton_ne. vm_compute. discriminate.
Defined.

(** C2, as the code has it.  A 429 response: [check_hibp] returns [None],
    the value it also returns when nothing was found; the rate limit is
    told only by a WARNING line and a printed line; no second request
    goes out. *)
Theorem check_hibp_429_returns_none
    (net : network) (email : str) (tr : trace) (body : exn + json) :
  answer net email tr = Responds (Response 429 body) ->
  check_hibp net email tr
  = (Ret None,
     tr ++ [hibp_request email] ++ [Log WARNING MsgRateLimit; Print MsgRateLimit])
  /\ requests (final (check_hibp net email tr)) = requests tr ++ [hibp_request email].
Proof.
  intros Hnet.
  assert (check_hibp net email tr
          = (Ret None,
             tr ++ [hibp_request email] ++ [Log WARNING MsgRateLimit; Print MsgRateLimit]))
    as Heq.
  { send_request Hnet. cbn [Z.eqb Pos.eqb]. run_py.
    unfold hibp_request. rewrite <- !app_assoc. reflexivity. }
  split; [exact Heq |].
  rewrite Heq. unfold final. cbn [snd]. rewrite !requests_app. reflexivity.
Qed.

Lemma check_hibp_429_run :
  check_hibp (answers 429 JNull) (lit "a@b.com") []
  = (Ret None,
     [hibp_request (lit "a@b.com"); Log WARNING MsgRateLimit; Print MsgRateLimit])
  /\ requests (final (check_hibp (answers 429 JNull) (lit "a@b.com") []))
     = [hibp_request (lit "a@b.com")].
Proof.
  apply (check_hibp_429_returns_none (answers 429 JNull) (lit "a@b.com") [] (inr JNull)).
  reflexivity.
Defined.

(** C2, as the claim has it, fails: what [check_hibp] returns for a 429 is
    what it returns for a 404, so no reading of the returned value tells
    [RateLimited] from [NotFound]. *)
Lemma check_hibp_429_indistinguishable_from_404 :
  ~ exists decode : outcome (option (list json)) -> Spec.BreachResult,
      decode (result (check_hibp (answers 404 JNull) (lit "a@b.com") []))
      = Spec.NotFound
      /\ decode (result (check_hibp (answers 429 JNull) (lit "a@b.com") []))
         = Spec.Failed Spec.RateLimited.
Proof.
  intros [decode [H404 H429]].
  change (result (check_hibp (answers 429 JNull) (lit "a@b.com") []))
    with (result (check_hibp (answers 404 JNull) (lit "a@b.com") [])) in H429.
  congruence.
Qed.

(** C3, as the code has it.  A response with any status other than 200,
    404 and 429: [check_hibp] returns [None]; the status code is in the
    ERROR line and in the printed line. *)
Theorem check_hibp_other_status_returns_none
    (net : network) (email : str) (tr : trace) (st : Z) (body : exn + json) :
  answer net email tr = Responds (Response st body) ->
  st <> 200 -> st <> 404 -> st <> 429 ->
  check_hibp net email tr
  = (Ret None,
     tr ++ [hibp_request email] ++ [Log ERROR (MsgStatus st); Print (MsgStatus st)]).
Proof.
  intros Hnet H200 H404 H429. send_request Hnet.
  apply Z.eqb_neq in H200, H404, H429. rewrite H200, H404, H429. run_py.
  unfold hibp_request. rewrite <- !app_assoc. reflexivity.
Qed.

Lemma check_hibp_500_run :
  check_hibp (answers 500 JNull) (lit "a@b.com") []
  = (Ret None,
     [hibp_request (lit "a@b.com"); Log ERROR (MsgStatus 500); Print (MsgStatus 500)]).
Proof.
  apply (check_hibp_other_status_returns_none
           (answers 500 JNull) (lit "a@b.com") [] 500 (inr JNull));
    [reflexivity | lia | lia | lia].
Defined.

(** C3, as the claim has it, fails: a 500 and a 503 return the same
    value, so the returned value carries no status code. *)
Lemma check_hibp_500_indistinguishable_from_503 :
  ~ exists decode : outcome (option (list json)) -> Spec.BreachResult,
      decode (result (check_hibp (answers 500 JNull) (lit "a@b.com") []))
      = Spec.Failed (Spec.UpstreamError 500)
      /\ decode (result (check_hibp (answers 503 JNull) (lit "a@b.com") []))
         = Spec.Failed (Spec.UpstreamError 503).
Proof.
  intros [decode [H500 H503]].
  change (result (check_hibp (answers 503 JNull) (lit "a@b.com") []))
    with (result (check_hibp (answers 500 JNull) (lit "a@b.com") [])) in H503.
  congruence.
Qed.




(** ** The request itself *)

Section Quiet.

Context {A B : Type}.

Lemma quiet_ret (a : A) : quiet (ret a).
Proof. intros tr. reflexivity. Qed.

Lemma quiet_raise (e : exn) : quiet (raise (A := A) e).
Proof. intros tr. reflexivity. Qed.

Lemma quiet_bind (m : M A) (k : A -> M B) :
  quiet m -> (forall a, quiet (k a)) -> quiet (bind m k).
Proof.
  intros Hm Hk tr. unfold bind. specialize (Hm tr).
  destruct (m tr) as [[a | e] tr']; unfold final in Hm; cbn [snd] in Hm.
  - rewrite Hk. exact Hm.
  - exact Hm.
Qed.

Lemma quiet_try_except (body : M A) (handler : exn -> M A) :
  quiet body -> (forall e, quiet (handler e)) -> quiet (try_except body handler).
Proof.
  intros Hbody Hhandler tr. unfold try_except. specialize (Hbody tr).
  destruct (body tr) as [[a | e] tr']; unfold final in Hbody; cbn [snd] in Hbody.
  - exact Hbody.
  - rewrite Hhandler. exact Hbody.
Qed.

End Quiet.

Lemma quiet_emit (ev : event) : is_Get ev = false -> quiet (emit ev).
Proof.
  intros Hev tr. unfold emit, final. cbn [snd]. rewrite requests_app.
  unfold requests at 2. cbn [List.filter]. rewrite Hev. apply app_nil_r.
Qed.

Lemma quiet_iterate (data : json) : quiet (iterate data).
Proof. destruct data; intros tr; reflexivity. Qed.

Lemma quiet_getitem (breach : json) (key : str) : quiet (getitem breach key).
Proof.
  destruct breach; intros tr; try reflexivity.
  cbn [getitem]. destruct (d !! key); reflexivity.
Qed.

Lemma quiet_comprehension {A B} (f : A -> M B) (l : list A) :
  (forall x, quiet (f x)) -> quiet (comprehension f l).
Proof.
  intros Hf. induction l as [| x l IH]; cbn [comprehension].
  - apply quiet_ret.
  - apply quiet_bind; [apply Hf |]. intros y.
    apply quiet_bind; [exact IH |]. intros ys. apply quiet_ret.
Qed.

Ltac quiet :=
  repeat first
    [ apply quiet_ret | apply quiet_raise | apply quiet_iterate
    | apply quiet_getitem
    | apply quiet_emit; reflexivity
    | apply quiet_comprehension; intros
    | apply quiet_bind; [| intros]
    | match goal with
      | |- quiet (if ?b then _ else _) => destruct b
      | |- quiet (response_json ?r) =>
          unfold response_json; destruct (json_body r)
      end ].

(** C8, as the code has it.  Whatever the email and whatever the network
    does, [check_hibp] sends exactly one request: a GET of the breach
    database's address followed by the email as it stands, with the header
    [hibp-api-key] set to ["anonymous"]. *)
Theorem check_hibp_sends_one_request (net : network) (email : str) (tr : trace) :
  requests (final (check_hibp net email tr))
  = requests tr
    ++ [Get (lit "https://haveibeenpwned.com/api/v3/breachedaccount/" ++ email)
            [(lit "hibp-api-key", lit "anonymous")]].
Proof.
  unfold check_hibp. cbv zeta.
  match goal with
  | |- context [try_except (bind (session_get net ?u ?h) ?k) ?handler] =>
      assert (forall r, quiet (k r)) as Hbody;
      [| assert (forall e, quiet (handler e)) as Hhandler ]
  end.
  { intros r. unfold logging.info, logging.warning, logging.error, print. quiet. }
  { intros e. unfold logging.error, logging.exception, print. quiet. }
  unfold try_except, bind at 1, session_get.
  destruct (net _ _ _) as [r | e].
  - specialize (Hbody r (tr ++ [Get (lit "https://haveibeenpwned.com/api/v3/breachedaccount/" ++ email)
                                   [(lit "hibp-api-key", lit "anonymous")]])).
    destruct (_ : outcome _ * trace) as [[names | e] tr'] in Hbody |- *;
      unfold final in Hbody; cbn [snd] in Hbody.
    + unfold final. cbn [snd]. rewrite Hbody. apply requests_app.
    + rewrite Hhandler, Hbody. apply requests_app.
  - rewrite Hhandler. apply requests_app.
Qed.

(** C8, as the claim has it, fails: the email goes into the address as it
    stands.  For [a%41b@c.com], which the format check accepts, the
    address sent ends in [a%41b@c.com] and not in the URL-encoded
    [a%2541b%40c.com]. *)
Lemma check_hibp_does_not_url_encode :
  is_valid_email (lit "a%41b@c.com") = true
  /\ Spec.url_encode (lit "a%41b@c.com") = lit "a%2541b%40c.com"
  /\ requests (final (check_hibp (answers 404 JNull) (lit "a%41b@c.com") []))
     = [Get (lit "https://haveibeenpwned.com/api/v3/breachedaccount/a%41b@c.com")
            [(lit "hibp-api-key", lit "anonymous")]]
  /\ requests (final (check_hibp (answers 404 JNull) (lit "a%41b@c.com") []))
     <> [Get (lit "https://haveibeenpwned.com/api/v3/breachedaccount/"
                ++ Spec.url_encode (lit "a%41b@c.com"))
             [(lit "hibp-api-key", lit "anonymous")]].
Proof.
  repeat split; try reflexivity. vm_compute. discriminate.
Qed.

(** ** The command line *)

Module ParserFacts.

Import argparse.

Import ParserState.

Lemma error_stops {T} (P : T -> Prop) m tr :
  keeps P tr (error (T := T) m tr).
Proof. split; [right; reflexivity | eexists; reflexivity]. Qed.

Lemma keeps_bind {T U} (P : T -> Prop) (Q : U -> Prop) (m : M T) (k : T -> M U) tr :
  keeps P tr (m tr) ->
  (forall x, P x -> keeps Q tr (k x tr)) ->
  keeps Q tr (bind m k tr).
Proof.
  unfold bind. destruct (m tr) as [[x | e] tr']; cbn; [| tauto].
  intros [Hx ->] Hk. apply Hk, Hx.
Qed.

Lemma consistent_defaults : consistent defaults.
Proof.
  split; cbn.
  - intros d. split; [destruct d; cbn; congruence | intros H; inversion H].
  - intros a b H. inversion H.
  - intros H. inversion H.
Qed.

Lemma consistent_add_extra s st : consistent st -> consistent (add_extra s st).
Proof. intros [H1 H2 H3]. split; assumption. Qed.

Lemma get_values_not_None s : get_values s <> PyNone.
Proof. unfold get_values. destruct (str_eqb _ _); discriminate. Qed.

Lemma getattr_setattr_eq ns d v : getattr (setattr ns d v) d = v.
Proof. destruct d; reflexivity. Qed.

Lemma getattr_setattr_ne ns d d' v : d <> d' -> getattr (setattr ns d v) d' = getattr ns d'.
Proof. destruct d, d'; congruence || reflexivity. Qed.

(** The conflicts of a storing option of the program's parser are the
    two other storing options. *)
Lemma conflicts_spec d c :
  c ∈ action_conflicts setup_argparse (Store d) <-> exists d', c = Store d' /\ d' <> d.
Proof.
  destruct d;
    match goal with
    | |- context [action_conflicts ?p ?a] =>
        let l := eval vm_compute in (action_conflicts p a) in
        change (action_conflicts p a) with l
    end;
    rewrite !elem_of_cons, elem_of_nil; split.
  all: try (intros [-> | [-> | []]]; eexists; (split; [reflexivity | discriminate])).
  all: intros [d' [-> Hne]]; destruct d'; tauto.
Qed.

Lemma no_conflict_seen d l :
  existsb (fun c => in_seen c l) (action_conflicts setup_argparse (Store d)) = false ->
  forall d', d' <> d -> Store d' ∉ l.
Proof.
  intros Hex d' Hne Hin.
  assert (existsb (fun c => in_seen c l) (action_conflicts setup_argparse (Store d)) = true)
    as Htrue; [| congruence].
  apply existsb_exists. exists (Store d'). split.
  - apply list_elem_of_In, conflicts_spec. eauto.
  - unfold in_seen. apply bool_decide_eq_true. exact Hin.
Qed.

Lemma conflict_seen d d' l :
  d' <> d -> Store d' ∈ l ->
  existsb (fun c => in_seen c l) (action_conflicts setup_argparse (Store d)) = true.
Proof.
  intros Hne Hin. apply existsb_exists. exists (Store d'). split.
  - apply list_elem_of_In, conflicts_spec. eauto.
  - unfold in_seen. apply bool_decide_eq_true. exact Hin.
Qed.

Lemma take_action_keeps t st tr :
  consistent st -> keeps consistent tr (take_action setup_argparse t st tr).
Proof.
  intros [Hset Hagree Hhelp]. destruct t as [| d o s]; cbn [take_action].
  { split; [left; reflexivity | eexists; reflexivity]. }
  destruct (existsb _ _) eqn:Hconf; [apply error_stops |].
  pose proof (no_conflict_seen _ _ Hconf) as Hnone.
  assert (forall a, a ∈ seen st ++ [Store d] -> a = Store d) as Hall.
  { intros [| d'] Ha.
    - apply elem_of_app in Ha as [Ha | Ha]; [contradiction |].
      apply list_elem_of_singleton in Ha. discriminate.
    - destruct (decide (d' = d)) as [-> | Hne]; [reflexivity |].
      exfalso. exact (Hnone d' Hne Ha). }
  split; [| reflexivity]. split; cbn.
  - intros d'. destruct (decide (d' = d)) as [-> | Hne].
    + rewrite getattr_setattr_eq. split.
      * intros _. apply elem_of_app. right. apply list_elem_of_singleton. reflexivity.
      * intros _. apply get_values_not_None.
    + rewrite getattr_setattr_ne by congruence. split.
      * intros H. apply Hset in H. apply elem_of_app. left. exact H.
      * intros H. apply Hall in H. congruence.
  - intros a b Ha Hb. rewrite (Hall a Ha), (Hall b Hb). reflexivity.
  - intros H. apply Hall in H. discriminate.
Qed.

Lemma take_actions_keeps ts st tr :
  consistent st -> keeps consistent tr (take_actions setup_argparse ts st tr).
Proof.
  revert st. induction ts as [| t ts IH]; intros st Hst; cbn [take_actions].
  - split; [exact Hst | reflexivity].
  - apply (keeps_bind consistent); [apply take_action_keeps, Hst | exact IH].
Qed.

Lemma consume_keeps items st tr :
  consistent st -> keeps consistent tr (consume setup_argparse items st tr).
Proof.
  remember (length items) as n eqn:Hn.
  assert (length items <= n)%nat as Hlen by lia. clear Hn.
  revert items st Hlen. induction n as [| n IH]; intros items st Hlen Hst.
  { destruct items; [| cbn in Hlen; lia]. split; [exact Hst | reflexivity]. }
  destruct items as [| [s p] rest]; [split; [exact Hst | reflexivity] |].
  cbn in Hlen.
  assert (keeps consistent tr (consume setup_argparse rest (add_extra s st) tr)) as Hextra.
  { apply IH; [lia | apply consistent_add_extra, Hst]. }
  destruct p as [| [[a |] o explicit] |]; cbn [consume]; try exact Hextra.
  destruct (consume_optional _ a o explicit rest) as [m | [tuples took]];
    [apply error_stops |].
  apply (keeps_bind consistent); [apply take_actions_keeps, Hst |].
  intros st' Hst'. destruct took, rest as [| item rest'];
    try (apply IH; [cbn in *; lia | exact Hst']).
Qed.

Lemma parse_known_args_keeps argv tr :
  keeps (fun st => consistent st /\ exists d, Store d ∈ seen st) tr
    (parse_known_args setup_argparse argv tr).
Proof.
  unfold parse_known_args.
  destruct (classify _ argv) as [s | items]; [apply error_stops |].
  apply (keeps_bind consistent); [apply consume_keeps, consistent_defaults |].
  intros st Hst. cbn [group_required setup_argparse argparse.add_argument
                        argparse.add_mutually_exclusive_group andb].
  destruct (existsb _ _) eqn:Hreq; cbn [negb]; [| apply error_stops].
  split; [| reflexivity]. split; [exact Hst |].
  apply existsb_exists in Hreq as [a [Ha Hin]].
  unfold in_seen in Hin. apply bool_decide_eq_true in Hin.
  destruct a as [| d]; [| eauto].
  exfalso. exact (help_not_seen _ Hst Hin).
Qed.

Lemma parse_args_keeps argv tr :
  keeps exactly_one tr (parse_args setup_argparse argv tr).
Proof.
  unfold parse_args.
  apply (keeps_bind (fun st => consistent st /\ exists d, Store d ∈ seen st));
    [apply parse_known_args_keeps |].
  intros st [Hst [d Hd]]. destruct (extras st); [| apply error_stops].
  split; [| reflexivity]. exists d. split.
  - apply (set_iff_seen _ Hst), Hd.
  - intros d' Hd'. apply (set_iff_seen _ Hst) in Hd'.
    pose proof (seen_agree _ Hst _ _ Hd Hd') as Heq. congruence.
Qed.

End ParserFacts.

Module ParserRejects.

Import argparse ParserState.

Lemma split1_glued x c t :
  (x =? 61)%N = false -> (c =? 61)%N = false ->
  exists a b, split1 (chr "=") (45 :: x :: c :: t)%N = ((45 :: x :: c :: a)%N, b).
Proof.
  intros Hx Hc. change (chr "=") with 61%N. cbn [split1].
  change (45 =? 61)%N with false. rewrite Hx, Hc. cbv iota.
  destruct (split1 61%N t) as [a b]. eauto.
Qed.

(** The short option with a text glued to it that does not start with
    an equals sign. *)
Lemma glued_classified d c t :
  (c =? 61)%N = false ->
  parse_optional setup_argparse (short_option d ++ c :: t)
  = Optional (OptionTuple (Some (Store d)) (short_option d) (Some (c :: t))).
Proof.
  intros Hc.
  assert (exists x, (x =? 61)%N = false /\ short_option d = [45; x]%N
                    /\ (forall u, option_action setup_argparse (45 :: x :: c :: u)%N = None)
                    /\ get_option_tuples setup_argparse (45 :: x :: c :: t)%N
                       = [OptionTuple (Some (Store d)) [45; x]%N (Some (c :: t))])
    as [x [Hx [-> [Hnone Htuples]]]].
  { destruct d; eexists; (split; [| split; [reflexivity | split]]);
      try reflexivity; intros u; vm_compute; reflexivity. }
  change ([45; x]%N ++ c :: t) with (45 :: x :: c :: t)%N.
  unfold parse_optional. change (negb (45 =? dash)%N) with false. cbv iota.
  rewrite Hnone. change ((length (45 :: x :: c :: t)%N =? 1)%nat) with false. cbv iota.
  rewrite Htuples.
  destruct (contains (chr "=") (45 :: x :: c :: t)%N); [| reflexivity].
  destruct (split1_glued x c t Hx Hc) as [a [b ->]]. rewrite Hnone. reflexivity.
Qed.

(** Every way of giving an option is read as that option. *)
Lemma gives_reads_as d arg : gives d arg -> reads_as d arg.
Proof.
  assert (forall o v, o ∈ spellings d -> reads_as d (o ++ [chr "="] ++ v)) as Hequals.
  { intros o v Hin. destruct d; cbn [spellings] in Hin;
      repeat (apply elem_of_cons in Hin as [-> | Hin]; [eexists; eexists; reflexivity |]);
      inversion Hin. }
  intros [Hin | [[o [v [Hin ->]]] | [c [t ->]]]].
  - destruct d; cbn [spellings] in Hin;
      repeat (apply elem_of_cons in Hin as [-> | Hin]; [eexists; eexists; reflexivity |]);
      inversion Hin.
  - apply Hequals, Hin.
  - destruct (c =? 61)%N eqn:Hc.
    + apply N.eqb_eq in Hc. subst c.
      apply (Hequals (short_option d) t). destruct d; apply list_elem_of_here.
    + eexists. eexists. apply glued_classified, Hc.
Qed.

(** What the first loop leaves for the second: a [--], or every string
    with the letter [parse_optional] gives it. *)
Lemma classify_items argv : forall items,
  classify setup_argparse argv = inr items ->
  (exists x, (x, Dash) ∈ items)
  \/ (forall arg t, arg ∈ argv -> parse_optional setup_argparse arg = Optional t ->
        (arg, O t) ∈ items).
Proof.
  induction argv as [| arg argv IH]; intros items Hitems.
  { right. intros a t Ha. inversion Ha. }
  cbn [classify] in Hitems.
  destruct (str_eqb arg (lit "--")).
  { injection Hitems as <-. left. eexists. apply list_elem_of_here. }
  destruct (classify setup_argparse argv) as [bad | items'] eqn:Hrest.
  { destruct (parse_optional setup_argparse arg); discriminate. }
  destruct (parse_optional setup_argparse arg) as [| t0 |] eqn:Harg;
    cbn [sum_map] in Hitems; try discriminate; injection Hitems as <-.
  all: destruct (IH items' eq_refl) as [[x Hx] | Hall];
    [left; exists x; apply list_elem_of_further, Hx | right].
  all: intros a t Ha Hopt; apply elem_of_cons in Ha as [-> | Ha];
    [| apply list_elem_of_further, (Hall a t Ha Hopt)].
  - congruence.
  - rewrite Harg in Hopt. injection Hopt as ->. apply list_elem_of_here.
Qed.

(** An option item comes from a string of the command line. *)
Lemma classify_items_back argv : forall items arg t,
  classify setup_argparse argv = inr items ->
  (arg, O t) ∈ items ->
  arg ∈ argv /\ parse_optional setup_argparse arg = Optional t.
Proof.
  induction argv as [| a argv IH]; intros items arg t Hitems Hin.
  { injection Hitems as <-. inversion Hin. }
  cbn [classify] in Hitems.
  destruct (str_eqb a (lit "--")).
  { injection Hitems as <-. apply elem_of_cons in Hin as [[=] | Hin].
    apply list_elem_of_fmap in Hin as [x [[=] _]]. }
  destruct (classify setup_argparse argv) as [bad | items'] eqn:Hrest.
  { destruct (parse_optional setup_argparse a); discriminate. }
  destruct (parse_optional setup_argparse a) as [| t0 |] eqn:Ha;
    cbn [sum_map] in Hitems; try discriminate; injection Hitems as <-.
  all: apply elem_of_cons in Hin as [Heq | Hin];
    [| destruct (IH items' arg t eq_refl Hin) as [H1 H2];
       split; [apply list_elem_of_further, H1 | exact H2]].
  - discriminate.
  - injection Heq as -> ->. split; [apply list_elem_of_here | exact Ha].
Qed.

(** What [consume_optional] settles for a storing option and for help. *)
Lemma consume_optional_store d o explicit rest tuples took :
  consume_optional setup_argparse (Store d) o explicit rest = inr (tuples, took) ->
  exists o' x,
    tuples = [TakeStore d o' x]
    /\ (took = true -> exists rest', rest = (x, A) :: rest').
Proof.
  unfold consume_optional. destruct explicit as [e |].
  - replace (with_explicit_arg setup_argparse (Store d) o e)
      with (inr ([TakeStore d o e], None)
            : argparse_message + list action_tuple * option (action * str))
      by (destruct e; reflexivity).
    intros [= <- <-]. exists o, e. split; [reflexivity | discriminate].
  - cbn [without_explicit_arg]. destruct rest as [| [x [| t |]] rest']; try discriminate.
    intros [= <- <-]. exists o, x. eauto.
Qed.

Lemma consume_optional_help o explicit rest tuples took :
  consume_optional setup_argparse Help o explicit rest = inr (tuples, took) ->
  exists ts, tuples = TakeHelp :: ts.
Proof.
  unfold consume_optional. destruct explicit as [e |].
  - destruct e as [| e0 e']; [destruct o as [| ? [| ? ?]]; discriminate |].
    cbn [with_explicit_arg].
    destruct o as [| c0 [| c1 o']]; try discriminate.
    destruct (c1 =? dash)%N; [discriminate |].
    destruct (option_action setup_argparse [dash; e0]) as [a' |]; [| discriminate].
    destruct e' as [| e1 e''].
    + destruct (without_explicit_arg a' [dash; e0] rest) as [m | [more took']];
        [discriminate |].
      intros [= <- _]. eauto.
    + destruct (with_explicit_arg setup_argparse a' [dash; e0] (e1 :: e''))
        as [m | [ts [[a'' o''] |]]]; [discriminate | |].
      * destruct (without_explicit_arg a'' o'' rest) as [m | [more took']];
          [discriminate |].
        intros [= <- _]. eauto.
      * intros [= <- _]. eauto.
  - cbn [without_explicit_arg]. intros [= <- _]. eauto.
Qed.

Lemma take_actions_help ts st tr :
  take_actions setup_argparse (TakeHelp :: ts) st tr
  = (Raise (SystemExit 0), tr ++ [Argparse ArgHelp]).
Proof. reflexivity. Qed.

Lemma take_actions_store d o x st tr :
  (exists st', take_actions setup_argparse [TakeStore d o x] st tr = (Ret st', tr)
               /\ seen st' = seen st ++ [Store d] /\ extras st' = extras st)
  \/ (exists m, take_actions setup_argparse [TakeStore d o x] st tr
                = (Raise (SystemExit 2), tr ++ [Argparse m])).
Proof.
  cbn [take_actions take_action]. unfold bind.
  destruct (existsb _ _); [right | left]; eexists; [reflexivity |].
  split; [reflexivity | split; reflexivity].
Qed.

(** What an accepted run of the second loop has done: every storing
    option among the items was acted upon, and every [--] is an extra. *)
Lemma consume_acts items : forall st tr st' tr',
  consume setup_argparse items st tr = (Ret st', tr') ->
  (forall a, a ∈ seen st -> a ∈ seen st')
  /\ (forall x, x ∈ extras st -> x ∈ extras st')
  /\ (forall arg d o ex,
        (arg, O (OptionTuple (Some (Store d)) o ex)) ∈ items -> Store d ∈ seen st')
  /\ (forall x, (x, Dash) ∈ items -> x ∈ extras st').
Proof.
  remember (length items) as n eqn:Hn.
  assert (length items <= n)%nat as Hlen by lia. clear Hn.
  revert items Hlen. induction n as [| n IH]; intros items Hlen st tr st' tr' Hrun.
  { destruct items; [| cbn in Hlen; lia]. injection Hrun as <- <-.
    repeat split; auto; intros; inversion H. }
  destruct items as [| [s p] rest].
  { injection Hrun as <- <-. repeat split; auto; intros; inversion H. }
  cbn in Hlen.
  assert (consume setup_argparse rest (add_extra s st) tr = (Ret st', tr') ->
          (forall d o ex, p <> O (OptionTuple (Some (Store d)) o ex)) ->
          (forall a, a ∈ seen st -> a ∈ seen st')
          /\ (forall x, x ∈ extras st -> x ∈ extras st')
          /\ (forall arg d o ex,
                (arg, O (OptionTuple (Some (Store d)) o ex)) ∈ (s, p) :: rest ->
                Store d ∈ seen st')
          /\ (forall x, (x, Dash) ∈ (s, p) :: rest -> x ∈ extras st')) as Hextra.
  { intros Hrest Hp.
    destruct (IH rest ltac:(lia) _ _ _ _ Hrest) as [H1 [H2 [H3 H4]]].
    split; [exact H1 |]. split.
    - intros x Hx. apply H2. cbn. apply elem_of_app. auto.
    - split.
      + intros arg d o ex Hin. apply elem_of_cons in Hin as [[= -> <-] | Hin].
        * exfalso. eapply Hp. reflexivity.
        * eapply H3, Hin.
      + intros x Hin. apply elem_of_cons in Hin as [[= -> _] | Hin].
        * apply H2. cbn. apply elem_of_app. right. apply list_elem_of_here.
        * apply H4, Hin. }
  destruct p as [| [[a |] o explicit] |];
    try (apply Hextra; [exact Hrun | intros; discriminate]).
  cbn [consume] in Hrun.
  destruct (consume_optional setup_argparse a o explicit rest)
    as [m | [tuples took]] eqn:Hopt; [discriminate |].
  destruct a as [| d].
  { apply consume_optional_help in Hopt as [ts ->].
    unfold bind in Hrun. rewrite take_actions_help in Hrun. discriminate. }
  apply consume_optional_store in Hopt as [o' [x [-> Htook]]].
  unfold bind in Hrun.
  destruct (take_actions_store d o' x st tr)
    as [[st1 [Hact [Hseen Hextras]]] | [m Hact]];
    rewrite Hact in Hrun; [| discriminate].
  assert (exists rest0,
            consume setup_argparse rest0 st1 tr = (Ret st', tr')
            /\ (length rest0 <= n)%nat
            /\ (forall arg d0 o0 ex0,
                  (arg, O (OptionTuple (Some (Store d0)) o0 ex0)) ∈ rest ->
                  (arg, O (OptionTuple (Some (Store d0)) o0 ex0)) ∈ rest0)
            /\ (forall y, (y, Dash) ∈ rest -> (y, Dash) ∈ rest0))
    as [rest0 [Hrest0 [Hlen0 [Hopts Hdashes]]]].
  { destruct took.
    - destruct (Htook eq_refl) as [rest' ->]. exists rest'.
      split; [exact Hrun |]. split; [cbn in Hlen; lia |]. split.
      + intros arg d0 o0 ex0 Hin. apply elem_of_cons in Hin as [[=] | Hin]. exact Hin.
      + intros y Hin. apply elem_of_cons in Hin as [[=] | Hin]. exact Hin.
    - exists rest. split; [destruct rest; exact Hrun |].
      split; [lia |]. auto. }
  destruct (IH rest0 Hlen0 _ _ _ _ Hrest0) as [H1 [H2 [H3 H4]]].
  split.
  { intros b Hb. apply H1. rewrite Hseen. apply elem_of_app. auto. }
  split.
  { intros y Hy. apply H2. rewrite Hextras. exact Hy. }
  split.
  - intros arg d0 o0 ex0 Hin. apply elem_of_cons in Hin as [[= -> -> -> ->] | Hin].
    + apply H1. rewrite Hseen. apply elem_of_app. right. apply list_elem_of_here.
    + eapply H3, Hopts, Hin.
  - intros y Hin. apply elem_of_cons in Hin as [[=] | Hin]. apply H4, Hdashes, Hin.
Qed.

(** The second loop ends the program with status 0 only for a help
    option. *)
Lemma consume_exit_0 items : forall st tr tr',
  consume setup_argparse items st tr = (Raise (SystemExit 0), tr') ->
  exists arg o ex, (arg, O (OptionTuple (Some Help) o ex)) ∈ items.
Proof.
  remember (length items) as n eqn:Hn.
  assert (length items <= n)%nat as Hlen by lia. clear Hn.
  revert items Hlen. induction n as [| n IH]; intros items Hlen st tr tr' Hrun.
  { destruct items; [discriminate | cbn in Hlen; lia]. }
  destruct items as [| [s p] rest]; [discriminate |]. cbn in Hlen.
  assert (consume setup_argparse rest (add_extra s st) tr = (Raise (SystemExit 0), tr') ->
          exists arg o ex, (arg, O (OptionTuple (Some Help) o ex)) ∈ (s, p) :: rest)
    as Hextra.
  { intros Hrest. destruct (IH rest ltac:(lia) _ _ _ Hrest) as [arg [o [ex Hin]]].
    exists arg, o, ex. apply list_elem_of_further, Hin. }
  destruct p as [| [[a |] o explicit] |]; try (apply Hextra; exact Hrun).
  cbn [consume] in Hrun.
  destruct a as [| d].
  { exists s, o, explicit. apply list_elem_of_here. }
  destruct (consume_optional setup_argparse (Store d) o explicit rest)
    as [m | [tuples took]] eqn:Hopt; [discriminate |].
  apply consume_optional_store in Hopt as [o' [x [-> Htook]]].
  unfold bind in Hrun.
  destruct (take_actions_store d o' x st tr)
    as [[st1 [Hact _]] | [m Hact]];
    rewrite Hact in Hrun; [| discriminate].
  assert (exists rest0,
            consume setup_argparse rest0 st1 tr = (Raise (SystemExit 0), tr')
            /\ (length rest0 <= n)%nat
            /\ (forall i, i ∈ rest0 -> i ∈ rest))
    as [rest0 [Hrest0 [Hlen0 Hsub]]].
  { destruct took.
    - destruct (Htook eq_refl) as [rest' ->]. exists rest'.
      split; [exact Hrun |]. split; [cbn in Hlen; lia |].
      intros i Hi. apply list_elem_of_further, Hi.
    - exists rest. split; [destruct rest; exact Hrun |]. split; [lia | auto]. }
  destruct (IH rest0 Hlen0 _ _ _ Hrest0) as [arg [o0 [ex Hin]]].
  exists arg, o0, ex. apply list_elem_of_further, Hsub, Hin.
Qed.

(** An accepted command line: every string that reads as a storing
    option has been acted upon. *)
Lemma parse_known_args_acts argv tr st tr' :
  parse_known_args setup_argparse argv tr = (Ret st, tr') ->
  consistent st
  /\ (extras st = [] ->
      forall arg d, arg ∈ argv -> reads_as d arg -> Store d ∈ seen st).
Proof.
  unfold parse_known_args.
  destruct (classify setup_argparse argv) as [bad | items] eqn:Hitems; [discriminate |].
  unfold bind.
  pose proof (ParserFacts.consume_keeps items defaults tr ParserFacts.consistent_defaults)
    as Hkeeps.
  destruct (consume setup_argparse items defaults tr) as [[st0 | e] tr0] eqn:Hrun;
    [| discriminate].
  destruct Hkeeps as [Hcons ->].
  destruct (group_required setup_argparse && _); [discriminate |].
  intros [= <- <-]. split; [exact Hcons |].
  intros Hextras arg d Harg [o [ex Hopt]].
  destruct (consume_acts items _ _ _ _ Hrun) as [_ [_ [Hacted Hdash]]].
  destruct (classify_items argv items Hitems) as [[x Hx] | Hall].
  - apply Hdash in Hx. rewrite Hextras in Hx. inversion Hx.
  - eapply Hacted, Hall; eassumption.
Qed.

(** Two strings that read as the options of two destinations: the
    command line is not accepted. *)
Lemma two_options_not_accepted argv tr a1 a2 d1 d2 args tr' :
  a1 ∈ argv -> a2 ∈ argv -> reads_as d1 a1 -> reads_as d2 a2 -> d1 <> d2 ->
  parse_args setup_argparse argv tr <> (Ret args, tr').
Proof.
  intros H1 H2 Hr1 Hr2 Hne Hrun. unfold parse_args, bind in Hrun.
  destruct (parse_known_args setup_argparse argv tr) as [[st | e] tr0] eqn:Hknown;
    [| discriminate].
  destruct (parse_known_args_acts argv tr st tr0 Hknown) as [Hcons Hacted].
  destruct (extras st) eqn:Hextras; [| discriminate].
  pose proof (seen_agree _ Hcons _ _ (Hacted eq_refl a1 d1 H1 Hr1)
                (Hacted eq_refl a2 d2 H2 Hr2)) as Heq.
  congruence.
Qed.

(** The parser ends the program with status 0 only for a help option. *)
Lemma parse_args_exit_0 argv tr tr' :
  parse_args setup_argparse argv tr = (Raise (SystemExit 0), tr') ->
  exists a, a ∈ argv /\ is_help_option a = true.
Proof.
  unfold parse_args, bind at 1.
  destruct (parse_known_args setup_argparse argv tr) as [[st | e] tr0] eqn:Hknown.
  { destruct (extras st); discriminate. }
  intros [= -> <-]. unfold parse_known_args in Hknown.
  destruct (classify setup_argparse argv) as [bad | items] eqn:Hitems; [discriminate |].
  unfold bind in Hknown.
  destruct (consume setup_argparse items defaults tr) as [[st0 | e] tr1] eqn:Hrun.
  { destruct (group_required setup_argparse && _); discriminate. }
  injection Hknown as -> <-.
  apply consume_exit_0 in Hrun as [arg [o [ex Hin]]].
  apply (classify_items_back argv items arg _ Hitems) in Hin as [Harg Hopt].
  exists arg. split; [exact Harg |]. unfold is_help_option. rewrite Hopt. reflexivity.
Qed.

End ParserRejects.

(** C9. Whatever the command line, [parse_args] either returns a
    namespace in which exactly one of [email], [org_name] and [technology]
    is set, or it stops the program (help text and status 0, or a usage
    error and status 2) before [main] does anything else.  A command line
    on which two strings are read as the options of two different
    destinations is never accepted: the parser stops the program with a
    usage error and status 2, or with the help text and status 0 if a
    help option is on the command line too, and [main] does nothing else.
    Every spelling of an option, with its argument after it, after an
    equals sign or glued to the short option, is read as that option.  An
    option of the group that comes after another option of the group was
    acted upon is a usage error: the earlier one is not overwritten. *)
Theorem one_query_per_run (argv : list str) (tr : trace) :
  match argparse.parse_args setup_argparse argv tr with
  | (Ret args, tr') => ParserState.exactly_one args /\ tr' = tr
  | (Raise e, tr') =>
      (e = SystemExit 0 \/ e = SystemExit 2)
      /\ (exists m, tr' = tr ++ [Argparse m])
      /\ forall net, main net argv tr = (Raise e, tr')
  end
  /\ (forall a1 a2 d1 d2,
        a1 ∈ argv -> a2 ∈ argv -> reads_as d1 a1 -> reads_as d2 a2 -> d1 <> d2 ->
        exists e m,
          argparse.parse_args setup_argparse argv tr = (Raise e, tr ++ [Argparse m])
          /\ (e = SystemExit 2
              \/ (e = SystemExit 0 /\ exists a, a ∈ argv /\ is_help_option a = true))
          /\ forall net, main net argv tr = (Raise e, tr ++ [Argparse m]))
  /\ (forall d arg, gives d arg -> reads_as d arg)
  /\ forall st d d' o s,
       d' <> d ->
       argparse.Store d' ∈ argparse.seen_non_default_actions st ->
       argparse.take_action setup_argparse (argparse.TakeStore d o s) st tr
       = (Raise (SystemExit 2), tr ++ [Argparse (ArgNotAllowedWith o)]).
Proof.
  assert (match argparse.parse_args setup_argparse argv tr with
          | (Ret args, tr') => ParserState.exactly_one args /\ tr' = tr
          | (Raise e, tr') =>
              (e = SystemExit 0 \/ e = SystemExit 2)
              /\ (exists m, tr' = tr ++ [Argparse m])
              /\ forall net, main net argv tr = (Raise e, tr')
          end) as Hparse.
  { pose proof (ParserFacts.parse_args_keeps argv tr) as Hkeeps.
    unfold main. cbv zeta. unfold bind at 1.
    destruct (argparse.parse_args setup_argparse argv tr) as [[args | e] tr'];
      cbn in Hkeeps; [exact Hkeeps |].
    destruct Hkeeps as [He Hm]. auto. }
  split; [exact Hparse |]. split; [| split].
  - intros a1 a2 d1 d2 H1 H2 Hr1 Hr2 Hne.
    pose proof (ParserRejects.two_options_not_accepted argv tr a1 a2 d1 d2) as Hno.
    pose proof (ParserRejects.parse_args_exit_0 argv tr) as Hhelp.
    destruct (argparse.parse_args setup_argparse argv tr) as [[args | e] tr'].
    + exfalso. exact (Hno args tr' H1 H2 Hr1 Hr2 Hne eq_refl).
    + destruct Hparse as [He [[m ->] Hmain]]. exists e, m.
      split; [reflexivity |]. split; [| exact Hmain].
      destruct He as [-> | ->]; [right | left; reflexivity].
      split; [reflexivity |]. apply (Hhelp _ eq_refl).
  - apply ParserRejects.gives_reads_as.
  - intros st d d' o s Hne Hseen. cbn [argparse.take_action].
    rewrite (ParserFacts.conflict_seen d d'); [reflexivity | exact Hne |].
    apply elem_of_app. left. exact Hseen.
Qed.

(** [-e a@b.com -o Acme] and [-e a@b.com --org=Acme] are turned down by
    the parser. *)
Lemma email_and_org_rejected :
  main (answers 404 JNull) [lit "-e"; lit "a@b.com"; lit "-o"; lit "Acme"] []
  = (Raise (SystemExit 2), [Argparse (ArgNotAllowedWith (lit "-o"))])
  /\ exists e m,
       argparse.parse_args setup_argparse [lit "-e"; lit "a@b.com"; lit "--org=Acme"] []
       = (Raise e, [] ++ [Argparse m])
       /\ (e = SystemExit 2
           \/ (e = SystemExit 0
               /\ exists a,
                    a ∈ [lit "-e"; lit "a@b.com"; lit "--org=Acme"]
                    /\ is_help_option a = true))
       /\ forall net,
            main net [lit "-e"; lit "a@b.com"; lit "--org=Acme"] []
            = (Raise e, [] ++ [Argparse m]).
Proof.
  split.
  - exact (proj2 (proj2 (proj1
             (one_query_per_run [lit "-e"; lit "a@b.com"; lit "-o"; lit "Acme"] [])))
             (answers 404 JNull)).
  - apply (proj1 (proj2
             (one_query_per_run [lit "-e"; lit "a@b.com"; lit "--org=Acme"] []))
             (lit "-e") (lit "--org=Acme") argparse.Email argparse.OrgName).
    + apply list_elem_of_here.
    + apply list_elem_of_further, list_elem_of_further, list_elem_of_here.
    + eexists. eexists. reflexivity.
    + eexists. eexists. reflexivity.
    + discriminate.
Defined.

(** ** Arguments that main should turn down *)

(** X20. An email that is not empty and fails the format check ends the
    program with status 1 before any request. *)
Lemma invalid_email_exits_1 (net : network) (argv : list str) (tr : trace)
    (args : argparse.Namespace) (email : str) :
  argparse.parse_args setup_argparse argv tr = (Ret args, tr) ->
  argparse.email args = argparse.PyStr email ->
  email <> [] ->
  is_valid_email email = false ->
  program net argv tr = (1, tr ++ [Print MsgInvalidEmail]).
Proof.
  intros Hparse Hemail Hne Hbad. unfold program, main. cbv zeta.
  unfold bind at 1. rewrite Hparse, Hemail.
  destruct email as [| c s]; [congruence |]. cbn [truthy_str].
  unfold bind at 1. rewrite Hbad. reflexivity.
Qed.

(** An organization name that is not empty but is all white space ends
    the program with status 1 before the search stubs. *)
Lemma blank_org_exits_1 (net : network) (argv : list str) (tr : trace)
    (args : argparse.Namespace) (org : str) :
  argparse.parse_args setup_argparse argv tr = (Ret args, tr) ->
  truthy_str (argparse.email args) = None ->
  argparse.org_name args = argparse.PyStr org ->
  org <> [] ->
  strip org = [] ->
  program net argv tr = (1, tr ++ [Print MsgOrgEmpty]).
Proof.
  intros Hparse Hemail Horg Hne Hblank. unfold program, main. cbv zeta.
  unfold bind at 1. rewrite Hparse, Hemail, Horg.
  destruct org as [| c s]; [congruence |]. cbn [truthy_str].
  unfold bind at 1. rewrite Hblank. reflexivity.
Qed.

Lemma blank_tech_exits_1 (net : network) (argv : list str) (tr : trace)
    (args : argparse.Namespace) (tech : str) :
  argparse.parse_args setup_argparse argv tr = (Ret args, tr) ->
  truthy_str (argparse.email args) = None ->
  truthy_str (argparse.org_name args) = None ->
  argparse.technology args = argparse.PyStr tech ->
  tech <> [] ->
  strip tech = [] ->
  program net argv tr = (1, tr ++ [Print MsgTechEmpty]).
Proof.
  intros Hparse Hemail Horg Htech Hne Hblank. unfold program, main. cbv zeta.
  unfold bind at 1. rewrite Hparse, Hemail, Horg, Htech.
  destruct tech as [| c s]; [congruence |]. cbn [truthy_str].
  unfold bind at 1. rewrite Hblank. reflexivity.
Qed.

Example blank_org_run (net : network) :
  program net [lit "-o"; lit "  "] [] = (1, [Print MsgOrgEmpty]).
Proof. reflexivity. Qed.

(** C5 at the empty email.  [-e ""] is accepted by the parser and stores
    the empty string, which fails the format check; [main] takes it for an
    absent option, skips the check and every branch, and the program ends
    with status 0 having printed nothing and sent nothing. *)
Theorem empty_email_exits_0 (net : network) :
  argparse.parse_args setup_argparse [lit "-e"; lit ""] []
  = (Ret {| argparse.email := argparse.PyStr [];
            argparse.org_name := argparse.PyNone;
            argparse.technology := argparse.PyNone |}, [])
  /\ is_valid_email (lit "") = false
  /\ program net [lit "-e"; lit ""] [] = (0, []).
Proof. repeat split. Qed.

(** C7 at the empty name.  [-o ""] and [-t ""] store the empty string,
    which is empty after trimming; [main] takes it for an absent option,
    and the program ends with status 0 having printed nothing. *)
Theorem empty_org_or_tech_exits_0 (net : network) :
  argparse.parse_args setup_argparse [lit "-o"; lit ""] []
  = (Ret {| argparse.email := argparse.PyNone;
            argparse.org_name := argparse.PyStr [];
            argparse.technology := argparse.PyNone |}, [])
  /\ argparse.parse_args setup_argparse [lit "-t"; lit ""] []
     = (Ret {| argparse.email := argparse.PyNone;
               argparse.org_name := argparse.PyNone;
               argparse.technology := argparse.PyStr [] |}, [])
  /\ strip (lit "") = []
  /\ program net [lit "-o"; lit ""] [] = (0, [])
  /\ program net [lit "-t"; lit ""] [] = (0, []).
Proof. repeat split. Qed.


(** ** Patterns and the texts they read *)

Module ReFacts.

Import Re ReLang.

Lemma matches_seq_inv r1 r2 s :
  matches (Seq r1 r2) s ->
  exists s1 s2, s = s1 ++ s2 /\ matches r1 s1 /\ matches r2 s2.
Proof. inversion 1; subst; eauto. Qed.

Lemma matches_alt_inv r1 r2 s :
  matches (Alt r1 r2) s -> matches r1 s \/ matches r2 s.
Proof. inversion 1; subst; auto. Qed.

Lemma matches_chars p s : matches (Chars p) s <-> exists c, s = [c] /\ p c = true.
Proof.
  split.
  - inversion 1; subst. eauto.
  - intros [c [-> Hc]]. constructor. exact Hc.
Qed.

Lemma nullable_matches r : nullable r = true <-> matches r [].
Proof.
  induction r as [| | p | r1 IH1 r2 IH2 | r1 IH1 r2 IH2 | r IH]; cbn [nullable].
  - split; [discriminate | inversion 1].
  - split; [constructor | reflexivity].
  - split; [discriminate | inversion 1].
  - rewrite andb_true_iff, IH1, IH2. split.
    + intros [H1 H2]. apply (MSeq _ _ [] []); assumption.
    + intros H. apply matches_seq_inv in H as [s1 [s2 [Heq [H1 H2]]]].
      symmetry in Heq. apply app_eq_nil in Heq as [-> ->]. auto.
  - rewrite orb_true_iff, IH1, IH2. split.
    + intros [H | H]; [apply MAltL | apply MAltR]; exact H.
    + apply matches_alt_inv.
  - split; [constructor | reflexivity].
Qed.

(** A starred pattern that reads a text starting with [c] reads it as
    one round starting with [c] followed by more rounds. *)
Lemma star_cons r c s :
  matches (Star r) (c :: s) ->
  exists s1 s2, s = s1 ++ s2 /\ matches r (c :: s1) /\ matches (Star r) s2.
Proof.
  remember (Star r) as r' eqn:Hr. remember (c :: s) as t eqn:Ht.
  intros H. revert s Hr Ht.
  induction H as [| | | | | | r0 s1 s2 H1 _ H2 IH2]; intros rest Hr Ht;
    try discriminate.
  injection Hr as ->. destruct s1 as [| c1 s1].
  - cbn in Ht. subst s2. apply (IH2 rest); reflexivity.
  - cbn in Ht. injection Ht as -> <-. eauto.
Qed.

Lemma deriv_matches r c s : matches (deriv c r) s <-> matches r (c :: s).
Proof.
  revert s. induction r as [| | p | r1 IH1 r2 IH2 | r1 IH1 r2 IH2 | r IH];
    intros s; cbn [deriv].
  - split; inversion 1.
  - split; inversion 1.
  - destruct (p c) eqn:Hp; split.
    + inversion 1; subst. constructor. exact Hp.
    + intros H. apply matches_chars in H as [c' [[= -> ->] _]]. constructor.
    + inversion 1.
    + intros H. apply matches_chars in H as [c' [[= -> ->] Hc]]. congruence.
  - assert (matches (Seq (deriv c r1) r2) s ->
            matches (Seq r1 r2) (c :: s)) as Hfirst.
    { intros H. apply matches_seq_inv in H as [s1 [s2 [-> [H1 H2]]]].
      apply IH1 in H1. apply (MSeq _ _ (c :: s1) s2); assumption. }
    assert (matches (Seq r1 r2) (c :: s) ->
            matches (Seq (deriv c r1) r2) s
            \/ (matches r1 [] /\ matches r2 (c :: s))) as Hsplit.
    { intros H. apply matches_seq_inv in H as [s1 [s2 [Heq [H1 H2]]]].
      destruct s1 as [| c1 s1]; cbn in Heq.
      - subst s2. right. auto.
      - injection Heq as <- ->. left. apply MSeq; [apply IH1, H1 | exact H2]. }
    destruct (nullable r1) eqn:Hnull; split.
    + intros H. apply matches_alt_inv in H as [H | H]; [auto |].
      apply (MSeq _ _ [] (c :: s)); [apply nullable_matches, Hnull | apply IH2, H].
    + intros H. apply Hsplit in H as [H | [_ H]];
        [apply MAltL, H | apply MAltR, IH2, H].
    + exact Hfirst.
    + intros H. apply Hsplit in H as [H | [H _]]; [exact H |].
      apply nullable_matches in H. congruence.
  - split; intros H; apply matches_alt_inv in H as [H | H];
      [apply MAltL, IH1 | apply MAltR, IH2 | apply MAltL, IH1 | apply MAltR, IH2];
      exact H.
  - split.
    + intros H. apply matches_seq_inv in H as [s1 [s2 [-> [H1 H2]]]].
      apply IH in H1. apply (MStarApp _ (c :: s1) s2); assumption.
    + intros H. apply star_cons in H as [s1 [s2 [-> [H1 H2]]]].
      apply MSeq; [apply IH, H1 | exact H2].
Qed.

(** The matcher decides the language of the pattern. *)
Lemma fullmatch_matches r s : fullmatch r s = true <-> matches r s.
Proof.
  revert r. induction s as [| c s IH]; intros r; cbn [fullmatch].
  - apply nullable_matches.
  - rewrite IH. apply deriv_matches.
Qed.

Lemma matches_star_chars p s : matches (Star (Chars p)) s <-> forallb p s = true.
Proof.
  split.
  - remember (Star (Chars p)) as r eqn:Hr. intros H. revert Hr.
    induction H as [| | | | | | r0 s1 s2 H1 _ _ IH2]; intros Hr; try discriminate.
    + reflexivity.
    + injection Hr as ->. apply matches_chars in H1 as [c [-> Hc]].
      cbn. rewrite Hc. apply IH2. reflexivity.
  - induction s as [| c s IH]; cbn [forallb]; [constructor |].
    intros H. apply andb_true_iff in H as [Hc Hs].
    apply (MStarApp _ [c] s); [constructor; exact Hc | apply IH, Hs].
Qed.

Lemma matches_plus_chars p s :
  matches (Plus (Chars p)) s <-> s <> [] /\ forallb p s = true.
Proof.
  unfold Plus. split.
  - intros H. apply matches_seq_inv in H as [s1 [s2 [-> [H1 H2]]]].
    apply matches_chars in H1 as [c [-> Hc]]. apply matches_star_chars in H2.
    split; [discriminate |]. cbn. rewrite Hc. exact H2.
  - intros [Hne Hall]. destruct s as [| c s]; [congruence |].
    cbn in Hall. apply andb_true_iff in Hall as [Hc Hs].
    apply (MSeq _ _ [c] s); [constructor; exact Hc | apply matches_star_chars, Hs].
Qed.

Lemma matches_atleast2_chars p s :
  matches (AtLeast2 (Chars p)) s <-> (2 <= length s)%nat /\ forallb p s = true.
Proof.
  unfold AtLeast2. split.
  - intros H. apply matches_seq_inv in H as [s1 [s2 [-> [H1 H2]]]].
    apply matches_chars in H1 as [c [-> Hc]].
    apply (proj1 (matches_plus_chars p s2)) in H2 as [Hne Hall].
    destruct s2; [congruence |]. split; [cbn; lia |].
    cbn [app forallb]. rewrite Hc. exact Hall.
  - intros [Hlen Hall]. destruct s as [| c s]; [cbn in Hlen; lia |].
    cbn in Hall. apply andb_true_iff in Hall as [Hc Hs].
    apply (MSeq _ _ [c] s); [constructor; exact Hc |].
    apply (proj2 (matches_plus_chars p s)). split; [| exact Hs].
    destruct s; [cbn in Hlen; lia | discriminate].
Qed.

Lemma matches_chr a s : matches (Chr a) s <-> s = [chr a].
Proof.
  unfold Chr. rewrite matches_chars. split.
  - intros [c [-> Hc]]. apply N.eqb_eq in Hc. rewrite <- Hc. reflexivity.
  - intros ->. exists (chr a). split; [reflexivity | apply N.eqb_refl].
Qed.

Lemma chomp_spec s s' : chomp s = Some s' <-> s = s' ++ [10%N].
Proof.
  revert s'. induction s as [| c s IH]; intros s'.
  - split; [discriminate | destruct s'; discriminate].
  - destruct s as [| c' s].
    + cbn. destruct (N.eqb_spec c 10) as [-> | Hne]; split.
      * intros [= <-]. reflexivity.
      * destruct s' as [| ? [| ? ?]]; intros [=]. reflexivity.
      * discriminate.
      * destruct s' as [| ? [| ? ?]]; intros [=]. congruence.
    + change (chomp (c :: c' :: s)) with (option_map (cons c) (chomp (c' :: s))).
      destruct (chomp (c' :: s)) as [t |] eqn:Ht; cbn [option_map]; split.
      * intros [= <-]. cbn. rewrite (proj1 (IH t) eq_refl). reflexivity.
      * destruct s' as [| c0 s']; [discriminate |]. cbn. intros [= -> Heq].
        apply (proj2 (IH s')) in Heq. injection Heq as ->. reflexivity.
      * discriminate.
      * destruct s' as [| c0 s']; [discriminate |]. cbn. intros [= -> Heq].
        apply (proj2 (IH s')) in Heq. discriminate.
Qed.

End ReFacts.

(** ** The address format *)

Lemma pattern_shape :
  pattern
  = Re.Seq (Re.Plus (Re.Chars local_char))
      (Re.Seq (Re.Chr "@")
         (Re.Seq (Re.Plus (Re.Chars domain_char))
            (Re.Seq (Re.Chr ".") (Re.AtLeast2 (Re.Chars alpha_char))))).
Proof. reflexivity. Qed.

Lemma matches_pattern s :
  ReLang.matches pattern s
  <-> exists local domain tld,
        s = address local domain tld /\ address_parts local domain tld.
Proof.
  rewrite pattern_shape. unfold address, address_parts. split.
  - intros H.
    apply ReFacts.matches_seq_inv in H as [local [s1 [-> [Hlocal H]]]].
    apply ReFacts.matches_seq_inv in H as [at_ [s2 [-> [Hat H]]]].
    apply ReFacts.matches_seq_inv in H as [domain [s3 [-> [Hdomain H]]]].
    apply ReFacts.matches_seq_inv in H as [dot [tld [-> [Hdot Htld]]]].
    apply ReFacts.matches_chr in Hat, Hdot. subst at_ dot.
    apply ReFacts.matches_plus_chars in Hlocal, Hdomain.
    apply ReFacts.matches_atleast2_chars in Htld.
    exists local, domain, tld. tauto.
  - intros [local [domain [tld [-> [Hl1 [Hl2 [Hd1 [Hd2 [Ht1 Ht2]]]]]]]]].
    apply ReLang.MSeq; [apply ReFacts.matches_plus_chars; auto |].
    apply ReLang.MSeq; [apply ReFacts.matches_chr; reflexivity |].
    apply ReLang.MSeq; [apply ReFacts.matches_plus_chars; auto |].
    apply ReLang.MSeq; [apply ReFacts.matches_chr; reflexivity |].
    apply ReFacts.matches_atleast2_chars; auto.
Qed.

Lemma is_valid_email_shape s :
  is_valid_email s = true ->
  exists local domain tld,
    address_parts local domain tld
    /\ (s = address local domain tld \/ s = address local domain tld ++ [10%N]).
Proof.
  unfold is_valid_email, Re.match_anchored. rewrite orb_true_iff.
  intros [H | H].
  - apply ReFacts.fullmatch_matches, matches_pattern in H
      as [local [domain [tld [-> Hparts]]]]. eauto 6.
  - destruct (Re.chomp s) as [s' |] eqn:Hchomp; [| discriminate].
    apply ReFacts.chomp_spec in Hchomp. subst s.
    apply ReFacts.fullmatch_matches, matches_pattern in H
      as [local [domain [tld [-> Hparts]]]]. eauto 6.
Qed.

(** X1. [is_valid_email] accepts exactly the texts [local@domain.tld],
    optionally followed by one newline, where [local] is a non-empty run
    of letters, digits and [._%+-], [domain] a non-empty run of letters,
    digits and [.-], and [tld] two or more letters. *)
Theorem is_valid_email_iff_address (s : str) :
  is_valid_email s = true
  <-> exists local domain tld,
        address_parts local domain tld
        /\ (s = address local domain tld \/ s = address local domain tld ++ [10%N]).
Proof.
  split; [apply is_valid_email_shape |].
  intros [local [domain [tld [Hparts Hs]]]].
  assert (Re.fullmatch pattern (address local domain tld) = true) as Hbody.
  { apply ReFacts.fullmatch_matches, matches_pattern. eauto. }
  unfold is_valid_email, Re.match_anchored. apply orb_true_iff.
  destruct Hs as [-> | ->]; [left; exact Hbody | right].
  rewrite (proj2 (ReFacts.chomp_spec _ (address local domain tld)) eq_refl).
  exact Hbody.
Qed.

Lemma forallb_weaken (p q : char -> bool) (s : str) :
  (forall c, p c = true -> q c = true) -> forallb p s = true -> forallb q s = true.
Proof.
  intros Hpq. induction s as [| c s IH]; cbn [forallb]; [reflexivity |].
  intros H. apply andb_true_iff in H as [Hc Hs].
  rewrite (Hpq c Hc). apply IH, Hs.
Qed.

Lemma alpha_is_local c : alpha_char c = true -> local_char c = true.
Proof. unfold local_char. intros ->. reflexivity. Qed.

Lemma domain_is_local c : domain_char c = true -> local_char c = true.
Proof.
  unfold domain_char, local_char, Re.one_of, contains. cbn [lit list_ascii_of_string List.map existsb].
  destruct (alpha_char c), (Re.range "0" "9" c); cbn [orb]; try reflexivity.
  intros H. apply orb_true_iff in H as [-> | H]; [reflexivity |].
  apply orb_true_iff in H as [H | H]; [| discriminate].
  rewrite H. rewrite !orb_true_r. reflexivity.
Qed.

Lemma local_is_address c : local_char c = true -> address_char c = true.
Proof. unfold address_char. intros ->. reflexivity. Qed.

Lemma filter_none (p : N -> bool) (c : N) (s : list N) :
  p c = false -> forallb p s = true -> List.filter (N.eqb c) s = [].
Proof.
  intros Hc. induction s as [| x s IH]; cbn [forallb List.filter]; [reflexivity |].
  intros H. apply andb_true_iff in H as [Hx Hs].
  destruct (N.eqb_spec c x) as [-> | _]; [congruence | apply IH, Hs].
Qed.

(** X2. Every character of an accepted address, a final newline apart,
    is an ASCII letter, a digit or one of [._%+-@]: no slash, question
    mark, hash or blank reaches the address of the request. *)
Theorem is_valid_email_characters (s : str) :
  is_valid_email s = true ->
  exists body,
    (s = body \/ s = body ++ [10%N]) /\ forallb address_char body = true.
Proof.
  intros H. apply is_valid_email_shape in H
    as [local [domain [tld [[_ [Hl [_ [Hd [_ Ht]]]]] Hs]]]].
  exists (address local domain tld). split; [exact Hs |].
  unfold address. rewrite !forallb_app. cbn [forallb].
  repeat (apply andb_true_intro; split); try reflexivity.
  - exact (forallb_weaken _ _ _ local_is_address Hl).
  - exact (forallb_weaken _ _ domain
             (fun c Hc => local_is_address c (domain_is_local c Hc)) Hd).
  - exact (forallb_weaken _ _ tld
             (fun c Hc => local_is_address c (alpha_is_local c Hc)) Ht).
Qed.

Lemma is_valid_email_characters_run :
  exists body,
    (lit "a.b+c@d-e.org" = body \/ lit "a.b+c@d-e.org" = body ++ [10%N])
    /\ forallb address_char body = true.
Proof.
  apply (is_valid_email_characters (lit "a.b+c@d-e.org")). reflexivity.
Defined.

(** X3. An accepted address holds exactly one [@]. *)
Theorem is_valid_email_one_at (s : str) :
  is_valid_email s = true -> occurrences (chr "@") s = 1%nat.
Proof.
  intros H. apply is_valid_email_shape in H
    as [local [domain [tld [[_ [Hl [_ [Hd [_ Ht]]]]] Hs]]]].
  assert (occurrences (chr "@") (address local domain tld) = 1%nat) as Hone.
  { unfold occurrences, address, str, char in *. rewrite !List.filter_app.
    rewrite (filter_none local_char (chr "@") local eq_refl Hl).
    rewrite (filter_none domain_char (chr "@") domain eq_refl Hd).
    rewrite (filter_none alpha_char (chr "@") tld eq_refl Ht).
    reflexivity. }
  destruct Hs as [-> | ->]; [exact Hone |].
  unfold occurrences in *. rewrite List.filter_app, length_app, Hone. reflexivity.
Qed.

Lemma is_valid_email_one_at_run : occurrences (chr "@") (lit "a.b+c@d-e.org") = 1%nat.
Proof.
  apply (is_valid_email_one_at (lit "a.b+c@d-e.org")). reflexivity.
Defined.

(** ** check_hibp, whatever comes back *)

(** Reading the names either gives a name for every item or stops at the
    first item that has none, with a [KeyError] or a [TypeError]. *)
Lemma comprehension_cases items tr :
  (exists names,
      Forall2 has_name items names
      /\ comprehension (fun breach => getitem breach (lit "Name")) items tr
         = (Ret names, tr))
  \/ (exists e,
        (e = KeyError (lit "Name") \/ exists v, e = TypeError (BadIndex v))
        /\ (~ exists names, Forall2 has_name items names)
        /\ comprehension (fun breach => getitem breach (lit "Name")) items tr
           = (Raise e, tr)).
Proof.
  induction items as [| item items IH].
  { left. exists []. split; [constructor | reflexivity]. }
  assert (forall e, (forall name, ~ has_name item name) ->
            getitem item (lit "Name") tr = (Raise e, tr) ->
            (e = KeyError (lit "Name") \/ exists v, e = TypeError (BadIndex v)) ->
            exists e0,
              (e0 = KeyError (lit "Name") \/ exists v, e0 = TypeError (BadIndex v))
              /\ (~ exists names, Forall2 has_name (item :: items) names)
              /\ comprehension (fun breach => getitem breach (lit "Name"))
                   (item :: items) tr = (Raise e0, tr)) as Hstop.
  { intros e Hnone Hget He. exists e. split; [exact He |]. split.
    - intros [names Hall]. inversion Hall; subst. eapply Hnone. eassumption.
    - cbn [comprehension]. unfold bind at 1. rewrite Hget. reflexivity. }
  destruct item as [| b | n | f | s | l | d].
  1-6: right;
    match goal with
    | |- context [comprehension _ (?item :: _) _] =>
        apply (Hstop (TypeError (BadIndex item)));
        [ intros name [d [Hd _]]; discriminate | reflexivity | eauto ]
    end.
  destruct (d !! lit "Name") as [v |] eqn:Hd.
  - destruct IH as [[names [Hall Hrun]] | [e [He [Hnone Hrun]]]].
    + left. exists (v :: names). split.
      * constructor; [exists d; auto | exact Hall].
      * cbn [comprehension]. unfold bind at 1. cbn [getitem]. rewrite Hd.
        unfold ret at 1. unfold bind at 1. rewrite Hrun. reflexivity.
    + right. exists e. split; [exact He |]. split.
      * intros [names Hall]. inversion Hall; subst. apply Hnone. eauto.
      * cbn [comprehension]. unfold bind at 1. cbn [getitem]. rewrite Hd.
        unfold ret at 1. unfold bind at 1. rewrite Hrun. reflexivity.
  - right. apply (Hstop (KeyError (lit "Name"))).
    + intros name [d' [[= <-] Hd']]. congruence.
    + cbn [getitem]. rewrite Hd. reflexivity.
    + auto.
Qed.

(** What [check_hibp] does once a 200 response is decoded and the body
    can be iterated over: all names, or [None] and an error report. *)
Lemma check_hibp_200_items net email tr data items :
  answer net email tr = Responds (Response 200 (inr data)) ->
  (forall tr0, iterate data tr0 = (Ret items, tr0)) ->
  (exists names,
      Forall2 has_name items names
      /\ check_hibp net email tr
         = (Ret (Some names),
            tr ++ [hibp_request email] ++ [Log INFO (MsgFound email names)]))
  \/ (exists e,
        (e = KeyError (lit "Name") \/ exists v, e = TypeError (BadIndex v))
        /\ (~ exists names, Forall2 has_name items names)
        /\ check_hibp net email tr
           = (Ret None,
              tr ++ [hibp_request email]
                 ++ [Log ERROR (MsgUnexpected e); Print (MsgUnexpected e)])).
Proof.
  intros Hnet Hiter.
  destruct (comprehension_cases items
              (tr ++ [Get (lit "https://haveibeenpwned.com/api/v3/breachedaccount/" ++ email)
                          [(lit "hibp-api-key", lit "anonymous")]]))
    as [[names [Hall Hrun]] | [e [He [Hnone Hrun]]]]; [left | right].
  - exists names. split; [exact Hall |].
    send_request Hnet. cbn [Z.eqb Pos.eqb].
    unfold response_json. cbn [json_body]. unfold bind at 1, ret at 1.
    unfold bind at 1. rewrite Hiter. unfold bind at 1. rewrite Hrun. run_py.
    unfold hibp_request. rewrite <- app_assoc. reflexivity.
  - exists e. split; [exact He |]. split; [exact Hnone |].
    send_request Hnet. cbn [Z.eqb Pos.eqb].
    unfold response_json. cbn [json_body]. unfold bind at 1, ret at 1.
    unfold bind at 1. rewrite Hiter. unfold bind at 1. rewrite Hrun.
    destruct He as [-> | [v ->]]; run_py;
      unfold hibp_request; rewrite <- !app_assoc; reflexivity.
Qed.

(** The same when the body cannot be iterated over. *)
Lemma check_hibp_200_not_iterable net email tr data :
  answer net email tr = Responds (Response 200 (inr data)) ->
  (forall tr0, iterate data tr0 = (Raise (TypeError (NotIterable data)), tr0)) ->
  check_hibp net email tr
  = (Ret None,
     tr ++ [hibp_request email]
        ++ [Log ERROR (MsgUnexpected (TypeError (NotIterable data)));
            Print (MsgUnexpected (TypeError (NotIterable data)))]).
Proof.
  intros Hnet Hiter. send_request Hnet. cbn [Z.eqb Pos.eqb].
  unfold response_json. cbn [json_body]. unfold bind at 1, ret at 1.
  unfold bind at 1. rewrite Hiter. run_py.
  unfold hibp_request. rewrite <- !app_assoc. reflexivity.
Qed.

(** Every JSON value is one or the other. *)
Lemma iterate_cases data :
  (exists items, forall tr0, iterate data tr0 = (Ret items, tr0))
  \/ (forall tr0, iterate data tr0 = (Raise (TypeError (NotIterable data)), tr0)).
Proof. destruct data; cbn [iterate]; eauto. Qed.

(** An exception from the transport or from [response.json()]: reported
    and turned into [None] if it is an [Exception], let through if not. *)
Lemma check_hibp_exception net email tr e :
  answer net email tr = Fails e
  \/ answer net email tr = Responds (Response 200 (inl e)) ->
  check_hibp net email tr
  = if is_Exception e
    then (Ret None,
          tr ++ [hibp_request email]
             ++ [Log ERROR (failure_message e); Print (failure_message e)])
    else (Raise e, tr ++ [hibp_request email]).
Proof.
  intros [Hnet | Hnet]; send_request Hnet; cbn [Z.eqb Pos.eqb]; run_py;
    unfold failure_message; destruct e; cbn [is_ClientError is_Exception]; run_py;
    unfold hibp_request; rewrite <- ?app_assoc; reflexivity.
Qed.

Lemma check_hibp_not_200 net email tr st body :
  answer net email tr = Responds (Response st body) ->
  st <> 200 ->
  exists lines, check_hibp net email tr = (Ret None, tr ++ [hibp_request email] ++ lines).
Proof.
  intros Hnet H200. send_request Hnet. apply Z.eqb_neq in H200. rewrite H200.
  destruct (st =? 404); [| destruct (st =? 429)]; run_py;
    unfold hibp_request; rewrite <- ?app_assoc; eexists; reflexivity.
Qed.




(** X5. [check_hibp] returns a list only for a 200 response whose body
    was decoded and in which every item read has a [Name]; the list is
    those names, and one INFO line reports them after the request. *)
Theorem check_hibp_list_only_from_200
    (net : network) (email : str) (tr tr' : trace) (names : list json) :
  check_hibp net email tr = (Ret (Some names), tr') ->
  exists data items,
    answer net email tr = Responds (Response 200 (inr data))
    /\ (forall tr0, iterate data tr0 = (Ret items, tr0))
    /\ Forall2 has_name items names
    /\ tr' = tr ++ [hibp_request email] ++ [Log INFO (MsgFound email names)].
Proof.
  intros Hrun.
  destruct (answer net email tr) as [[st [e0 | data]] | e0] eqn:Hnet.
  - destruct (decide (st = 200)) as [-> | Hst].
    + rewrite (check_hibp_exception net email tr e0) in Hrun by auto.
      destruct (is_Exception e0); discriminate.
    + destruct (check_hibp_not_200 net email tr st _ Hnet Hst) as [lines Heq].
      congruence.
  - destruct (decide (st = 200)) as [-> | Hst].
    + destruct (iterate_cases data) as [[items Hiter] | Hiter].
      * destruct (check_hibp_200_items net email tr data items Hnet Hiter)
          as [[names0 [Hall Heq]] | [e1 [_ [_ Heq]]]]; [| congruence].
        rewrite Heq in Hrun. injection Hrun as -> <-. eauto 6.
      * rewrite (check_hibp_200_not_iterable net email tr data Hnet Hiter) in Hrun.
        discriminate.
    + destruct (check_hibp_not_200 net email tr st _ Hnet Hst) as [lines Heq].
      congruence.
  - rewrite (check_hibp_exception net email tr e0) in Hrun by auto.
    destruct (is_Exception e0); discriminate.
Qed.

Lemma check_hibp_list_only_from_200_run :
  exists data items,
    answer (answers 200 adobe_linkedin) (lit "a@b.com") []
    = Responds (Response 200 (inr data))
    /\ (forall tr0, iterate data tr0 = (Ret items, tr0))
    /\ Forall2 has_name items [JStr (lit "Adobe"); JStr (lit "LinkedIn")]
    /\ [hibp_request (lit "a@b.com");
        Log INFO (MsgFound (lit "a@b.com") [JStr (lit "Adobe"); JStr (lit "LinkedIn")])]
       = [] ++ [hibp_request (lit "a@b.com")]
            ++ [Log INFO (MsgFound (lit "a@b.com")
                            [JStr (lit "Adobe"); JStr (lit "LinkedIn")])].
Proof.
  apply (check_hibp_list_only_from_200 (answers 200 adobe_linkedin) (lit "a@b.com") []).
  reflexivity.
Defined.



(** X7. A 200 response whose body is a list: [check_hibp] returns the
    list of names exactly when every item is an object with a [Name];
    if one item is anything else, it returns [None], never a part of the
    names. *)
Theorem check_hibp_200_all_or_nothing
    (net : network) (email : str) (tr : trace) (items : list json) :
  answer net email tr = Responds (Response 200 (inr (JList items))) ->
  (forall names,
      result (check_hibp net email tr) = Ret (Some names)
      <-> Forall2 has_name items names)
  /\ ((~ exists names, Forall2 has_name items names) ->
       result (check_hibp net email tr) = Ret None).
Proof.
  intros Hnet.
  destruct (check_hibp_200_items net email tr (JList items) items Hnet
              (fun tr0 => eq_refl))
    as [[names0 [Hall Heq]] | [e [_ [Hnone Heq]]]]; rewrite Heq; cbn [result fst].
  - split.
    + intros names. split.
      * intros [= <-]. exact Hall.
      * intros Hall'. f_equal. f_equal. clear Heq Hnet.
        revert names Hall'. induction Hall as [| item n0 items ns0 H0 _ IH];
          intros names Hall'; inversion Hall' as [| ? n ? ns H Htl]; subst;
          [reflexivity |].
        destruct H0 as [d0 [-> Hd0]]. destruct H as [d [[= <-] Hd]].
        f_equal; [congruence | apply IH, Htl].
    + intros Hnone. exfalso. apply Hnone. eauto.
  - split; [| reflexivity].
    intros names. split; [discriminate |].
    intros Hall. exfalso. apply Hnone. eauto.
Qed.

Lemma check_hibp_200_all_or_nothing_run :
  (forall names,
      result (check_hibp
                (answers 200 (JList [JDict {[ lit "Name" := JStr (lit "Adobe") ]};
                                     JStr (lit "LinkedIn")]))
                (lit "a@b.com") []) = Ret (Some names)
      <-> Forall2 has_name
            [JDict {[ lit "Name" := JStr (lit "Adobe") ]}; JStr (lit "LinkedIn")] names)
  /\ ((~ exists names,
          Forall2 has_name
            [JDict {[ lit "Name" := JStr (lit "Adobe") ]}; JStr (lit "LinkedIn")] names) ->
       result (check_hibp
                 (answers 200 (JList [JDict {[ lit "Name" := JStr (lit "Adobe") ]};
                                      JStr (lit "LinkedIn")]))
                 (lit "a@b.com") []) = Ret None).
Proof.
  apply (check_hibp_200_all_or_nothing
           (answers 200 (JList [JDict {[ lit "Name" := JStr (lit "Adobe") ]};
                                JStr (lit "LinkedIn")]))
           (lit "a@b.com") []).
  reflexivity.
Defined.

(** X8. A 200 response whose body is not a list: the empty object and
    the empty string are reported as no breach at all, the empty list of
    names; every other body (a number, [null], an object with keys, a
    text) gives [None]. *)
Theorem check_hibp_200_not_a_list
    (net : network) (email : str) (tr : trace) (data : json) :
  answer net email tr = Responds (Response 200 (inr data)) ->
  (forall l, data <> JList l) ->
  result (check_hibp net email tr)
  = Ret (if is_empty_container data then Some [] else None).
Proof.
  intros Hnet Hlist.
  assert (forall k items,
            (forall tr0, iterate data tr0 = (Ret (JStr k :: items), tr0)) ->
            result (check_hibp net email tr) = Ret None) as Hkeys.
  { intros k items Hiter.
    destruct (check_hibp_200_items net email tr data _ Hnet Hiter)
      as [[names [Hall Heq]] | [e [_ [_ Heq]]]]; rewrite Heq; [| reflexivity].
    inversion Hall as [| ? ? ? ? [d [Hd _]]]; subst. discriminate. }
  assert ((forall tr0, iterate data tr0 = (Ret [], tr0)) ->
          result (check_hibp net email tr) = Ret (Some [])) as Hempty.
  { intros Hiter.
    destruct (check_hibp_200_items net email tr data _ Hnet Hiter)
      as [[names [Hall Heq]] | [e [_ [Hnone Heq]]]]; rewrite Heq.
    - inversion Hall. reflexivity.
    - exfalso. apply Hnone. exists []. constructor. }
  destruct data as [| b | n | f | s | l | d]; cbn [is_empty_container];
    try (rewrite (check_hibp_200_not_iterable net email tr _ Hnet (fun tr0 => eq_refl));
         reflexivity).
  - destruct s as [| c s]; [apply Hempty; reflexivity |].
    apply (Hkeys [c] (List.map (fun c => JStr [c]) s)). reflexivity.
  - exfalso. exact (Hlist l eq_refl).
  - destruct (decide (d = ∅)) as [-> | Hne].
    + rewrite bool_decide_eq_true_2 by reflexivity. apply Hempty.
      intros tr0. cbn [iterate]. rewrite map_to_list_empty. reflexivity.
    + rewrite bool_decide_eq_false_2 by exact Hne.
      destruct (map_to_list d) as [| [k v] kvs] eqn:Hkvs.
      * apply map_to_list_empty_iff in Hkvs. contradiction.
      * apply (Hkeys k (List.map (fun kv => JStr (fst kv)) kvs)).
        intros tr0. cbn [iterate]. rewrite Hkvs. reflexivity.
Qed.

Lemma check_hibp_200_not_a_list_run :
  result (check_hibp
            (answers 200 (JDict {[ lit "message" := JStr (lit "Unauthorised") ]}))
            (lit "a@b.com") [])
  = Ret (if is_empty_container (JDict {[ lit "message" := JStr (lit "Unauthorised") ]})
         then Some [] else None).
Proof.
  apply (check_hibp_200_not_a_list
           (answers 200 (JDict {[ lit "message" := JStr (lit "Unauthorised") ]}))
           (lit "a@b.com") []).
  - reflexivity.
  - discriminate.
Defined.

(** ** What a computation adds to the trace *)

Section Emits.

Context {A B : Type} (P : event -> Prop).

Lemma emits_ret (a : A) : emits P (ret a).
Proof. intros tr. exists []. split; [symmetry; apply app_nil_r | constructor]. Qed.

Lemma emits_raise (e : exn) : emits P (raise (A := A) e).
Proof. intros tr. exists []. split; [symmetry; apply app_nil_r | constructor]. Qed.

Lemma emits_bind (m : M A) (k : A -> M B) :
  emits P m -> (forall a, emits P (k a)) -> emits P (bind m k).
Proof.
  intros Hm Hk tr. unfold bind. destruct (Hm tr) as [evs [Heq Hevs]].
  destruct (m tr) as [[a | e] tr']; unfold final in Heq; cbn [snd] in Heq; subst tr'.
  - destruct (Hk a (tr ++ evs)) as [evs' [Heq' Hevs']].
    exists (evs ++ evs'). rewrite Heq', app_assoc. split; [reflexivity |].
    apply Forall_app. auto.
  - exists evs. auto.
Qed.

Lemma emits_try_except (body : M A) (handler : exn -> M A) :
  emits P body -> (forall e, emits P (handler e)) -> emits P (try_except body handler).
Proof.
  intros Hbody Hhandler tr. unfold try_except.
  destruct (Hbody tr) as [evs [Heq Hevs]].
  destruct (body tr) as [[a | e] tr']; unfold final in Heq; cbn [snd] in Heq; subst tr'.
  - exists evs. auto.
  - destruct (Hhandler e (tr ++ evs)) as [evs' [Heq' Hevs']].
    exists (evs ++ evs'). rewrite Heq', app_assoc. split; [reflexivity |].
    apply Forall_app. auto.
Qed.

End Emits.

Lemma emits_emit (P : event -> Prop) (ev : event) : P ev -> emits P (emit ev).
Proof. intros Hev tr. exists [ev]. split; [reflexivity | repeat constructor; exact Hev]. Qed.

Lemma emits_iterate (P : event -> Prop) (data : json) : emits P (iterate data).
Proof. destruct data; cbn [iterate]; apply emits_ret || apply emits_raise. Qed.

Lemma emits_getitem (P : event -> Prop) (breach : json) (key : str) :
  emits P (getitem breach key).
Proof.
  destruct breach; cbn [getitem]; try apply emits_raise.
  destruct (d !! key); [apply emits_ret | apply emits_raise].
Qed.

Lemma emits_comprehension {A B} (P : event -> Prop) (f : A -> M B) (l : list A) :
  (forall x, emits P (f x)) -> emits P (comprehension f l).
Proof.
  intros Hf. induction l as [| x l IH]; cbn [comprehension].
  - apply emits_ret.
  - apply emits_bind; [apply Hf |]. intros y.
    apply emits_bind; [exact IH |]. intros ys. apply emits_ret.
Qed.

Lemma emits_session_get (P : event -> Prop) (net : network) url headers :
  P (Get url headers) -> emits P (session_get net url headers).
Proof.
  intros Hget tr. exists [Get url headers]. unfold session_get.
  split; [destruct (net _ _ _); reflexivity | repeat constructor; exact Hget].
Qed.

Lemma emits_parse_args (P : event -> Prop) (argv : list str) :
  (forall m, P (Argparse m)) -> emits P (argparse.parse_args setup_argparse argv).
Proof.
  intros Harg tr. pose proof (ParserFacts.parse_args_keeps argv tr) as Hkeeps.
  destruct (argparse.parse_args setup_argparse argv tr) as [[args | e] tr'];
    cbn in Hkeeps.
  - destruct Hkeeps as [_ ->]. exists []. split; [symmetry; apply app_nil_r | constructor].
  - destruct Hkeeps as [_ [m ->]]. exists [Argparse m].
    split; [reflexivity | repeat constructor; apply Harg].
Qed.

Ltac emits side :=
  repeat first
    [ apply emits_ret | apply emits_raise | apply emits_iterate
    | apply emits_getitem
    | apply emits_emit; side
    | apply emits_session_get; side
    | apply emits_parse_args; intros; side
    | apply emits_comprehension; intros
    | apply emits_try_except; [| intros]
    | apply emits_bind; [| intros]
    | match goal with
      | |- emits _ (if ?b then _ else _) => destruct b
      | |- emits _ (response_json ?r) =>
          unfold response_json; destruct (json_body r)
      | |- emits _ (match ?x with Some _ => _ | None => _ end) => destruct x
      end ].

(** X11. Whatever the command line and the network, [main] never
    prints the request to provide a search term and never logs that none
    was given: [run] is only ever called with one search term set. *)
Theorem main_never_prompts (net : network) (argv : list str) (tr : trace) :
  exists evs,
    final (main net argv tr) = tr ++ evs /\ Forall not_usage_prompt evs.
Proof.
  revert tr. change (emits not_usage_prompt (main net argv)).
  assert (forall url headers, not_usage_prompt (Get url headers)) as Hget
    by (split; discriminate).
  assert (forall lv m, m <> MsgNoTerm -> not_usage_prompt (Log lv m)) as Hlog
    by (intros lv m Hm; split; congruence).
  assert (forall m, m <> MsgProvide -> not_usage_prompt (Print m)) as Hprint
    by (intros m Hm; split; congruence).
  assert (forall m, not_usage_prompt (Argparse m)) as Harg
    by (split; discriminate).
  unfold main. cbv zeta. apply emits_bind; [apply emits_parse_args, Harg |].
  intros args.
  destruct (truthy_str (argparse.email args)) as [email |] eqn:Hemail.
  { destruct (argparse.email args) as [| [| c s] |]; try discriminate.
    injection Hemail as <-. unfold run, sys_exit, logging.info, print.
    cbn [truthy email].
    emits ltac:(first [apply Hget | apply Hlog; discriminate
                      | apply Hprint; discriminate]). }
  destruct (truthy_str (argparse.org_name args)) as [org |] eqn:Horg.
  { destruct (argparse.org_name args) as [| [| c s] |]; try discriminate.
    injection Horg as <-.
    unfold run, sys_exit, search_code_repositories, search_paste_sites,
      logging.info, print.
    cbn [truthy email org_name].
    emits ltac:(first [apply Hlog; discriminate | apply Hprint; discriminate]). }
  destruct (truthy_str (argparse.technology args)) as [tech |] eqn:Htech.
  { destruct (argparse.technology args) as [| [| c s] |]; try discriminate.
    injection Htech as <-.
    unfold run, sys_exit, search_code_repositories, search_paste_sites,
      logging.info, print.
    cbn [truthy email org_name technology].
    emits ltac:(first [apply Hlog; discriminate | apply Hprint; discriminate]). }
  apply emits_ret.
Qed.

(** ** Requests *)

Lemma check_hibp_requests net email tr :
  requests (final (check_hibp net email tr)) = requests tr ++ [hibp_request email].
Proof.
  unfold check_hibp, hibp_request. cbv zeta.
  match goal with
  | |- context [try_except (bind (session_get net ?u ?h) ?k) ?handler] =>
      assert (forall r, quiet (k r)) as Hbody;
      [| assert (forall e, quiet (handler e)) as Hhandler ]
  end.
  { intros r. unfold logging.info, logging.warning, logging.error, print. quiet. }
  { intros e. unfold logging.error, logging.exception, print. quiet. }
  unfold try_except, bind at 1, session_get.
  destruct (net _ _ _) as [r | e].
  - specialize (Hbody r (tr ++ [Get (lit "https://haveibeenpwned.com/api/v3/breachedaccount/" ++ email)
                                   [(lit "hibp-api-key", lit "anonymous")]])).
    destruct (_ : outcome _ * trace) as [[names | e] tr'] in Hbody |- *;
      unfold final in Hbody; cbn [snd] in Hbody.
    + unfold final. cbn [snd]. rewrite Hbody. apply requests_app.
    + rewrite Hhandler, Hbody. apply requests_app.
  - rewrite Hhandler. apply requests_app.
Qed.

Lemma quiet_parse_args argv : quiet (argparse.parse_args setup_argparse argv).
Proof.
  intros tr. pose proof (ParserFacts.parse_args_keeps argv tr) as Hkeeps.
  destruct (argparse.parse_args setup_argparse argv tr) as [[args | e] tr'];
    cbn in Hkeeps; unfold final; cbn [snd].
  - destruct Hkeeps as [_ ->]. reflexivity.
  - destruct Hkeeps as [_ [m ->]]. rewrite requests_app. apply app_nil_r.
Qed.

(** [run] for an email that is set: one line, then [check_hibp]. *)
Lemma run_email_requests net c s org tech tr :
  requests (final (run net {| email := Some (c :: s); org_name := org; technology := tech |} tr))
  = requests tr ++ [hibp_request (c :: s)].
Proof.
  unfold run. cbn [truthy email]. unfold bind at 1, logging.info, emit.
  unfold bind at 1.
  pose proof (check_hibp_requests net (c :: s) (tr ++ [Log INFO (MsgChecking (c :: s))]))
    as Hreq.
  destruct (check_hibp net (c :: s) _) as [[names | e] tr'];
    unfold final, ret in *; cbn [snd] in *; rewrite Hreq, requests_app;
    cbn; rewrite app_nil_r; reflexivity.
Qed.

(** X9. [run] sends a request exactly when [self.email] is set to a
    text that is not empty, and then exactly the one for that address,
    whatever [org_name] and [technology] hold; for an organization or a
    technology, and when nothing is set, it sends none. *)
Theorem run_requests (net : network) (self : BreachAlarm) (tr : trace) :
  requests (final (run net self tr))
  = requests tr
    ++ match truthy (email self) with
       | Some self_email => [hibp_request self_email]
       | None => []
       end.
Proof.
  destruct self as [[[| c s] |] org tech]; cbn [truthy email];
    try apply run_email_requests.
  all: rewrite app_nil_r; unfold run; cbn [truthy email org_name technology];
    destruct (truthy org) as [o |]; [| destruct (truthy tech) as [t |]];
    unfold search_code_repositories, search_paste_sites, logging.info,
      logging.warning, print; quiet.
Qed.

(** X10. Whatever the command line and the network, [main] sends no
    request at all or exactly one, and that one is for an address that
    [is_valid_email] accepted. *)
Theorem main_requests_only_valid_addresses
    (net : network) (argv : list str) (tr : trace) :
  requests (final (main net argv tr)) = requests tr
  \/ exists email,
       is_valid_email email = true
       /\ requests (final (main net argv tr)) = requests tr ++ [hibp_request email].
Proof.
  generalize (eq_refl (final (main net argv tr))).
  generalize (final (main net argv tr)) at 1 3 4 as tr_end.
  unfold main. cbv zeta. unfold bind at 1.
  pose proof (quiet_parse_args argv tr) as Hparse.
  destruct (argparse.parse_args setup_argparse argv tr) as [[args | e] tr0];
    unfold final in Hparse; cbn [snd] in Hparse;
    [| intros tr_end ->; left; exact Hparse].
  rewrite <- Hparse.
  destruct (truthy_str (argparse.email args)) as [email |] eqn:Hemail.
  { destruct (argparse.email args) as [| [| c s] |]; try discriminate.
    injection Hemail as <-. unfold bind at 1.
    destruct (is_valid_email (c :: s)) eqn:Hvalid; cbn [negb]; intros tr_end ->.
    - right. exists (c :: s). split; [exact Hvalid |].
      unfold ret at 1. apply run_email_requests.
    - left. unfold bind at 1, print. cbn [printed_term encodable forallb].
      unfold emit, sys_exit, raise, final. cbn [snd].
      rewrite requests_app. apply app_nil_r. }
  intros tr_end ->. left.
  destruct (truthy_str (argparse.org_name args)) as [org |] eqn:Horg.
  { destruct (argparse.org_name args) as [| [| c s] |]; try discriminate.
    injection Horg as <-.
    match goal with
    | |- requests (final (?m tr0)) = _ => assert (quiet m) as Hq; [| apply Hq]
    end.
    unfold run, sys_exit, search_code_repositories, search_paste_sites,
      logging.info, print.
    cbn [truthy email org_name]. quiet. }
  destruct (truthy_str (argparse.technology args)) as [tech |] eqn:Htech.
  { destruct (argparse.technology args) as [| [| c s] |]; try discriminate.
    injection Htech as <-.
    match goal with
    | |- requests (final (?m tr0)) = _ => assert (quiet m) as Hq; [| apply Hq]
    end.
    unfold run, sys_exit, search_code_repositories, search_paste_sites,
      logging.info, print.
    cbn [truthy email org_name technology]. quiet. }
  reflexivity.
Qed.

(** ** Trimming *)

Lemma lstrip_head s : lstrip s = [] \/ exists c s', lstrip s = c :: s' /\ isspace c = false.
Proof.
  induction s as [| c s IH]; [left; reflexivity |]. cbn [lstrip].
  destruct (isspace c) eqn:Hc; [exact IH | right; eauto].
Qed.

Lemma lstrip_nil s : lstrip s = [] <-> forallb isspace s = true.
Proof.
  induction s as [| c s IH]; cbn [lstrip forallb]; [tauto |].
  destruct (isspace c); cbn [andb]; [exact IH | split; discriminate].
Qed.

Lemma forallb_rev (p : N -> bool) (s : list N) : forallb p (rev s) = forallb p s.
Proof.
  induction s as [| c s IH]; [reflexivity |]. cbn [rev forallb].
  rewrite forallb_app, IH. cbn [forallb]. rewrite andb_true_r. apply andb_comm.
Qed.

(** [s.strip()] is empty exactly when [s] holds white space only. *)
Lemma strip_nil s : strip s = [] <-> forallb isspace s = true.
Proof.
  unfold strip. split.
  - intros H. apply (f_equal (@rev N)) in H. rewrite rev_involutive in H.
    cbn [rev] in H. apply lstrip_nil in H. unfold str, char in *.
    rewrite forallb_rev in H.
    destruct (lstrip_head s) as [Hnil | [c [s' [Heq Hc]]]].
    + apply lstrip_nil, Hnil.
    + unfold str, char in *. rewrite Heq in H. cbn [forallb] in H.
      rewrite Hc in H. discriminate.
  - intros H. apply lstrip_nil in H. rewrite H. reflexivity.
Qed.

Lemma is_empty_strip s : is_empty (strip s) = forallb isspace s.
Proof.
  destruct (forallb isspace s) eqn:Hs.
  - apply strip_nil in Hs. rewrite Hs. reflexivity.
  - destruct (strip s) eqn:Hstrip; [| reflexivity].
    apply strip_nil in Hstrip. congruence.
Qed.

(** ** The three searches, from the command line to the exit status *)

(** X12. An organization name that holds more than white space and that
    standard output can encode: the program logs the search, runs the two
    placeholder searches (code repositories, then paste sites) on the
    name as given, not trimmed, sends no request and ends with status 0. *)
Theorem organization_search
    (net : network) (argv : list str) (tr : trace)
    (args : argparse.Namespace) (org : str) :
  argparse.parse_args setup_argparse argv tr = (Ret args, tr) ->
  truthy_str (argparse.email args) = None ->
  argparse.org_name args = argparse.PyStr org ->
  forallb isspace org = false ->
  encodable org = true ->
  program net argv tr
  = (0, tr ++ [Log INFO (MsgSearchingOrg org);
               Log INFO (MsgSearchCode org); Print (MsgSearchCodePlaceholder org);
               Log INFO (MsgSearchPaste org); Print (MsgSearchPastePlaceholder org)]).
Proof.
  intros Hparse Hemail Horg Hspace Henc. unfold program, main. cbv zeta.
  unfold bind at 1. rewrite Hparse, Hemail, Horg.
  destruct org as [| c s]; [discriminate |]. cbn [truthy_str].
  unfold bind at 1. rewrite is_empty_strip, Hspace.
  unfold run. cbn [truthy email org_name technology].
  unfold search_code_repositories, search_paste_sites, print.
  cbn [printed_term]. rewrite Henc. run_py.
  rewrite <- !app_assoc. reflexivity.
Qed.

Lemma organization_search_run :
  program (answers 404 JNull) [lit "-o"; lit " Acme Corp"] []
  = (0, [] ++ [Log INFO (MsgSearchingOrg (lit " Acme Corp"));
               Log INFO (MsgSearchCode (lit " Acme Corp"));
               Print (MsgSearchCodePlaceholder (lit " Acme Corp"));
               Log INFO (MsgSearchPaste (lit " Acme Corp"));
               Print (MsgSearchPastePlaceholder (lit " Acme Corp"))]).
Proof.
  apply (organization_search (answers 404 JNull) [lit "-o"; lit " Acme Corp"] []
           {| argparse.email := argparse.PyNone;
              argparse.org_name := argparse.PyStr (lit " Acme Corp");
              argparse.technology := argparse.PyNone |} (lit " Acme Corp"));
    reflexivity.
Defined.

(** X13. A technology name that holds more than white space and that
    standard output can encode: the program logs the search, runs the two
    placeholder searches on the name as given, sends no request and ends
    with status 0. *)
Theorem technology_search
    (net : network) (argv : list str) (tr : trace)
    (args : argparse.Namespace) (tech : str) :
  argparse.parse_args setup_argparse argv tr = (Ret args, tr) ->
  truthy_str (argparse.email args) = None ->
  truthy_str (argparse.org_name args) = None ->
  argparse.technology args = argparse.PyStr tech ->
  forallb isspace tech = false ->
  encodable tech = true ->
  program net argv tr
  = (0, tr ++ [Log INFO (MsgSearchingTech tech);
               Log INFO (MsgSearchCode tech); Print (MsgSearchCodePlaceholder tech);
               Log INFO (MsgSearchPaste tech); Print (MsgSearchPastePlaceholder tech)]).
Proof.
  intros Hparse Hemail Horg Htech Hspace Henc. unfold program, main. cbv zeta.
  unfold bind at 1. rewrite Hparse, Hemail, Horg, Htech.
  destruct tech as [| c s]; [discriminate |]. cbn [truthy_str].
  unfold bind at 1. rewrite is_empty_strip, Hspace.
  unfold run. cbn [truthy email org_name technology].
  unfold search_code_repositories, search_paste_sites, print.
  cbn [printed_term]. rewrite Henc. run_py.
  rewrite <- !app_assoc. reflexivity.
Qed.

Lemma technology_search_run :
  program (answers 404 JNull) [lit "-t"; lit "Python"] []
  = (0, [] ++ [Log INFO (MsgSearchingTech (lit "Python"));
               Log INFO (MsgSearchCode (lit "Python"));
               Print (MsgSearchCodePlaceholder (lit "Python"));
               Log INFO (MsgSearchPaste (lit "Python"));
               Print (MsgSearchPastePlaceholder (lit "Python"))]).
Proof.
  apply (technology_search (answers 404 JNull) [lit "-t"; lit "Python"] []
           {| argparse.email := argparse.PyNone;
              argparse.org_name := argparse.PyNone;
              argparse.technology := argparse.PyStr (lit "Python") |} (lit "Python"));
    reflexivity.
Defined.

(** X23. An organization name that holds more than white space and that
    standard output cannot encode (it holds a surrogate, as a byte of the
    command line that is not UTF-8 leaves one): the two INFO lines are
    logged, the first placeholder [print] raises [UnicodeEncodeError],
    nothing catches it, and the program ends with a traceback and status
    1, having printed nothing and sent no request. *)
Theorem unencodable_org_exits_1
    (net : network) (argv : list str) (tr : trace)
    (args : argparse.Namespace) (org : str) :
  argparse.parse_args setup_argparse argv tr = (Ret args, tr) ->
  truthy_str (argparse.email args) = None ->
  argparse.org_name args = argparse.PyStr org ->
  forallb isspace org = false ->
  encodable org = false ->
  program net argv tr
  = (1, tr ++ [Log INFO (MsgSearchingOrg org); Log INFO (MsgSearchCode org);
               Traceback (UnicodeEncodeError org)]).
Proof.
  intros Hparse Hemail Horg Hspace Henc. unfold program, main. cbv zeta.
  unfold bind at 1. rewrite Hparse, Hemail, Horg.
  destruct org as [| c s]; [discriminate |]. cbn [truthy_str].
  unfold bind at 1. rewrite is_empty_strip, Hspace.
  unfold run. cbn [truthy email org_name technology].
  unfold search_code_repositories, search_paste_sites, print.
  cbn [printed_term]. rewrite Henc. run_py.
  rewrite <- !app_assoc. reflexivity.
Qed.

Lemma unencodable_org_exits_1_run :
  program (answers 404 JNull) [lit "-o"; [56575%N]] []
  = (1, [] ++ [Log INFO (MsgSearchingOrg [56575%N]); Log INFO (MsgSearchCode [56575%N]);
               Traceback (UnicodeEncodeError [56575%N])]).
Proof.
  apply (unencodable_org_exits_1 (answers 404 JNull) [lit "-o"; [56575%N]] []
           {| argparse.email := argparse.PyNone;
              argparse.org_name := argparse.PyStr [56575%N];
              argparse.technology := argparse.PyNone |} [56575%N]);
    reflexivity.
Defined.

(** X24. The same for a technology name that standard output cannot
    encode: two INFO lines, then a traceback and status 1. *)
Theorem unencodable_tech_exits_1
    (net : network) (argv : list str) (tr : trace)
    (args : argparse.Namespace) (tech : str) :
  argparse.parse_args setup_argparse argv tr = (Ret args, tr) ->
  truthy_str (argparse.email args) = None ->
  truthy_str (argparse.org_name args) = None ->
  argparse.technology args = argparse.PyStr tech ->
  forallb isspace tech = false ->
  encodable tech = false ->
  program net argv tr
  = (1, tr ++ [Log INFO (MsgSearchingTech tech); Log INFO (MsgSearchCode tech);
               Traceback (UnicodeEncodeError tech)]).
Proof.
  intros Hparse Hemail Horg Htech Hspace Henc. unfold program, main. cbv zeta.
  unfold bind at 1. rewrite Hparse, Hemail, Horg, Htech.
  destruct tech as [| c s]; [discriminate |]. cbn [truthy_str].
  unfold bind at 1. rewrite is_empty_strip, Hspace.
  unfold run. cbn [truthy email org_name technology].
  unfold search_code_repositories, search_paste_sites, print.
  cbn [printed_term]. rewrite Henc. run_py.
  rewrite <- !app_assoc. reflexivity.
Qed.

Lemma unencodable_tech_exits_1_run :
  program (answers 404 JNull) [lit "-t"; lit "C" ++ [56575%N]] []
  = (1, [] ++ [Log INFO (MsgSearchingTech (lit "C" ++ [56575%N]));
               Log INFO (MsgSearchCode (lit "C" ++ [56575%N]));
               Traceback (UnicodeEncodeError (lit "C" ++ [56575%N]))]).
Proof.
  apply (unencodable_tech_exits_1 (answers 404 JNull) [lit "-t"; lit "C" ++ [56575%N]] []
           {| argparse.email := argparse.PyNone;
              argparse.org_name := argparse.PyNone;
              argparse.technology := argparse.PyStr (lit "C" ++ [56575%N]) |}
           (lit "C" ++ [56575%N]));
    reflexivity.
Defined.

(** X21. An organization name that is not empty and holds white space
    only ends the program with status 1 after one printed line, before
    any search. *)
Theorem whitespace_org_exits_1
    (net : network) (argv : list str) (tr : trace)
    (args : argparse.Namespace) (org : str) :
  argparse.parse_args setup_argparse argv tr = (Ret args, tr) ->
  truthy_str (argparse.email args) = None ->
  argparse.org_name args = argparse.PyStr org ->
  org <> [] ->
  forallb isspace org = true ->
  program net argv tr = (1, tr ++ [Print MsgOrgEmpty]).
Proof.
  intros Hparse Hemail Horg Hne Hspace.
  apply (blank_org_exits_1 net argv tr args org); auto.
  apply strip_nil, Hspace.
Qed.

Lemma whitespace_org_exits_1_run :
  program (answers 404 JNull) [lit "-o"; lit "  "] [] = (1, [] ++ [Print MsgOrgEmpty]).
Proof.
  apply (whitespace_org_exits_1 (answers 404 JNull) [lit "-o"; lit "  "] []
           {| argparse.email := argparse.PyNone;
              argparse.org_name := argparse.PyStr (lit "  ");
              argparse.technology := argparse.PyNone |} (lit "  "));
    (reflexivity || discriminate).
Defined.

(** X22. A technology name that is not empty and holds white space only
    ends the program with status 1 after one printed line, before any
    search. *)
Theorem whitespace_tech_exits_1
    (net : network) (argv : list str) (tr : trace)
    (args : argparse.Namespace) (tech : str) :
  argparse.parse_args setup_argparse argv tr = (Ret args, tr) ->
  truthy_str (argparse.email args) = None ->
  truthy_str (argparse.org_name args) = None ->
  argparse.technology args = argparse.PyStr tech ->
  tech <> [] ->
  forallb isspace tech = true ->
  program net argv tr = (1, tr ++ [Print MsgTechEmpty]).
Proof.
  intros Hparse Hemail Horg Htech Hne Hspace.
  apply (blank_tech_exits_1 net argv tr args tech); auto.
  apply strip_nil, Hspace.
Qed.

Lemma whitespace_tech_exits_1_run :
  program (answers 404 JNull) [lit "-t"; [9%N; 32%N]] [] = (1, [] ++ [Print MsgTechEmpty]).
Proof.
  apply (whitespace_tech_exits_1 (answers 404 JNull) [lit "-t"; [9%N; 32%N]] []
           {| argparse.email := argparse.PyNone;
              argparse.org_name := argparse.PyNone;
              argparse.technology := argparse.PyStr [9%N; 32%N] |} [9%N; 32%N]);
    (reflexivity || discriminate).
Defined.

Lemma invalid_email_exits_1_run :
  program (answers 404 JNull) [lit "-e"; lit "not-an-address"] []
  = (1, [] ++ [Print MsgInvalidEmail]).
Proof.
  apply (invalid_email_exits_1 (answers 404 JNull) [lit "-e"; lit "not-an-address"] []
           {| argparse.email := argparse.PyStr (lit "not-an-address");
              argparse.org_name := argparse.PyNone;
              argparse.technology := argparse.PyNone |} (lit "not-an-address"));
    (reflexivity || discriminate).
Defined.

(** [main] for an accepted address comes down to one line and
    [check_hibp]. *)
Lemma main_valid_email net argv tr args email :
  argparse.parse_args setup_argparse argv tr = (Ret args, tr) ->
  argparse.email args = argparse.PyStr email ->
  is_valid_email email = true ->
  main net argv tr
  = match check_hibp net email (tr ++ [Log INFO (MsgChecking email)]) with
    | (Ret _, tr') => (Ret tt, tr')
    | (Raise e, tr') => (Raise e, tr')
    end.
Proof.
  intros Hparse Hemail Hvalid. unfold main. cbv zeta.
  unfold bind at 1. rewrite Hparse, Hemail.
  destruct email as [| c s]; [discriminate |]. cbn [truthy_str].
  unfold bind at 1. rewrite Hvalid. cbn [negb]. unfold ret at 1.
  unfold run. cbn [truthy email]. unfold bind at 1, logging.info, emit.
  unfold bind at 1.
  destruct (check_hibp net (c :: s) _) as [[names | e] tr']; reflexivity.
Qed.



(** X15. An interrupt while the request for an accepted address is
    under way: nothing catches it before the top level, which prints the
    farewell line and ends the program with status 0. *)
Theorem interrupt_exits_0
    (net : network) (argv : list str) (tr : trace)
    (args : argparse.Namespace) (email : str) :
  argparse.parse_args setup_argparse argv tr = (Ret args, tr) ->
  argparse.email args = argparse.PyStr email ->
  is_valid_email email = true ->
  answer net email (tr ++ [Log INFO (MsgChecking email)]) = Fails KeyboardInterrupt ->
  program net argv tr
  = (0, tr ++ [Log INFO (MsgChecking email); hibp_request email; Print MsgExiting]).
Proof.
  intros Hparse Hemail Hvalid Hnet. unfold program.
  rewrite (main_valid_email net argv tr args email Hparse Hemail Hvalid).
  rewrite (check_hibp_exception net email _ KeyboardInterrupt) by auto.
  cbn [is_Exception]. rewrite <- !app_assoc. reflexivity.
Qed.

Lemma interrupt_exits_0_run :
  program (always (Fails KeyboardInterrupt)) [lit "-e"; lit "a@b.com"] []
  = (0, [] ++ [Log INFO (MsgChecking (lit "a@b.com"));
               hibp_request (lit "a@b.com"); Print MsgExiting]).
Proof.
  apply (interrupt_exits_0 (always (Fails KeyboardInterrupt)) [lit "-e"; lit "a@b.com"] []
           {| argparse.email := argparse.PyStr (lit "a@b.com");
              argparse.org_name := argparse.PyNone;
              argparse.technology := argparse.PyNone |} (lit "a@b.com"));
    reflexivity.
Defined.


(** ** Command lines the parser accepts, and one kind it turns down *)

Module ParserRuns.

Import argparse ParserState.

Lemma plain_not_dashes x : plain x = true -> str_eqb x (lit "--") = false.
Proof.
  intros Hx. unfold str_eqb. apply bool_decide_eq_false. intros ->. discriminate.
Qed.

Lemma plain_positional x : plain x = true -> parse_optional setup_argparse x = Positional.
Proof.
  destruct x as [| c x]; [reflexivity |]. cbn [plain]. intros Hc.
  unfold parse_optional. rewrite Hc. reflexivity.
Qed.

Lemma plain_get_values x : plain x = true -> get_values x = PyStr x.
Proof. intros Hx. unfold get_values. rewrite plain_not_dashes by exact Hx. reflexivity. Qed.

Lemma classify_plain x rest :
  plain x = true ->
  classify setup_argparse (x :: rest)
  = sum_map id (cons (x, A)) (classify setup_argparse rest).
Proof.
  intros Hx. cbn [classify]. rewrite plain_not_dashes, plain_positional by exact Hx.
  reflexivity.
Qed.

Lemma classify_option d o rest :
  o ∈ option_strings d ->
  classify setup_argparse (o :: rest)
  = sum_map id (cons (o, O (OptionTuple (Some (Store d)) o None)))
      (classify setup_argparse rest).
Proof.
  intros Ho. destruct d; cbn [option_strings] in Ho;
    apply elem_of_cons in Ho as [-> | Ho];
    try (apply list_elem_of_singleton in Ho as ->); reflexivity.
Qed.

(** A storing option meets no conflict when every option acted upon so
    far is that same option. *)
Lemma same_option_no_conflict d l :
  (forall a, a ∈ l -> a = Store d) ->
  existsb (fun c => in_seen c l) (action_conflicts setup_argparse (Store d)) = false.
Proof.
  intros Hall. destruct (existsb _ _) eqn:Hex; [| reflexivity].
  apply existsb_exists in Hex as [c [Hc Hin]].
  apply list_elem_of_In, ParserFacts.conflicts_spec in Hc as [d' [-> Hne]].
  unfold in_seen in Hin. apply bool_decide_eq_true in Hin.
  apply Hall in Hin. congruence.
Qed.

Lemma setattr_setattr ns d v v' : setattr (setattr ns d v) d v' = setattr ns d v'.
Proof. destruct d; reflexivity. Qed.

Lemma classify_pairs d pairs :
  Forall (fun p => fst p ∈ option_strings d /\ plain (snd p) = true) pairs ->
  classify setup_argparse (argv_of pairs) = inr (items_of d pairs).
Proof.
  induction 1 as [| [o x] pairs [Ho Hx] _ IH]; [reflexivity |].
  cbn [argv_of items_of flat_map app fst snd] in *.
  rewrite (classify_option d o) by exact Ho.
  rewrite classify_plain by exact Hx.
  fold (argv_of pairs). rewrite IH. reflexivity.
Qed.

Lemma consume_pairs d pairs : forall st tr,
  Forall (fun p => plain (snd p) = true) pairs ->
  (forall a, a ∈ seen st -> a = Store d) ->
  exists st',
    consume setup_argparse (items_of d pairs) st tr = (Ret st', tr)
    /\ namespace st'
       = match pairs with
         | [] => namespace st
         | _ :: _ => setattr (namespace st) d (PyStr (List.last (List.map snd pairs) []))
         end
    /\ (forall a, a ∈ seen st' -> a = Store d)
    /\ (pairs <> [] -> Store d ∈ seen st')
    /\ extras st' = extras st.
Proof.
  induction pairs as [| [o x] pairs IH]; intros st tr Hplain Hseen.
  { exists st. cbn. tauto. }
  apply Forall_cons in Hplain as [Hx Hplain]. cbn [snd] in Hx.
  cbn [items_of flat_map app fst snd consume].
  cbn [consume_optional without_explicit_arg].
  unfold bind at 1. cbn [take_actions]. unfold bind at 1. cbn [take_action].
  rewrite same_option_no_conflict.
  2: { intros a Ha. apply elem_of_app in Ha as [Ha | Ha]; [apply Hseen, Ha |].
       apply list_elem_of_singleton in Ha. exact Ha. }
  rewrite plain_get_values by exact Hx.
  unfold ret at 1 2. cbv beta iota.
  match goal with
  | |- context [consume _ _ ?st1 _] =>
      destruct (IH st1 tr Hplain) as [st' [Hrun [Hns [Hall [Hin Hextras]]]]]
  end.
  { cbn [seen_non_default_actions]. intros a Ha.
    apply elem_of_app in Ha as [Ha | Ha]; [apply Hseen, Ha |].
    apply list_elem_of_singleton in Ha. exact Ha. }
  exists st'. fold (items_of d pairs). split; [exact Hrun |].
  cbn [namespace seen_non_default_actions extras] in *.
  split; [| split; [exact Hall | split; [| exact Hextras]]].
  - rewrite Hns. destruct pairs as [| p pairs]; [reflexivity |].
    rewrite setattr_setattr. reflexivity.
  - intros _. destruct pairs as [| p pairs]; [| apply Hin; discriminate].
    cbn in Hrun. injection Hrun as <-. cbn.
    apply elem_of_app. right. apply list_elem_of_singleton. reflexivity.
Qed.

Lemma classify_all_plain argv :
  Forall (fun x => plain x = true) argv ->
  classify setup_argparse argv = inr (List.map (fun x => (x, A)) argv).
Proof.
  induction 1 as [| x argv Hx _ IH]; [reflexivity |].
  rewrite classify_plain by exact Hx. rewrite IH. reflexivity.
Qed.

Lemma consume_all_plain argv : forall st tr,
  consume setup_argparse (List.map (fun x => (x, A)) argv) st tr
  = (Ret {| namespace := namespace st;
            seen_non_default_actions := seen st;
            extras := extras st ++ argv |}, tr).
Proof.
  induction argv as [| x argv IH]; intros st tr.
  - cbn. rewrite app_nil_r. destruct st; reflexivity.
  - cbn [List.map consume]. rewrite IH. cbn [add_extra namespace seen_non_default_actions extras].
    rewrite <- app_assoc. reflexivity.
Qed.

Lemma equals_form_optional d o v :
  o ∈ option_strings d ->
  str_eqb (o ++ [chr "="] ++ v) (lit "--") = false
  /\ parse_optional setup_argparse (o ++ [chr "="] ++ v)
     = Optional (OptionTuple (Some (Store d)) o (Some v)).
Proof.
  intros Ho. destruct d; cbn [option_strings] in Ho;
    apply elem_of_cons in Ho as [-> | Ho];
    try (apply list_elem_of_singleton in Ho as ->); split; reflexivity.
Qed.

End ParserRuns.

(** X17. A command line made of one option of the group, given once or
    several times (in its short or long spelling), each time followed by
    a text that does not start with a dash: the parser accepts it and
    the namespace holds the last text, as given, under that option and
    nothing under the two others. *)
Theorem repeated_option_last_wins
    (d : argparse.dest) (pairs : list (str * str)) (tr : trace) :
  pairs <> [] ->
  Forall (fun p => fst p ∈ option_strings d /\ plain (snd p) = true) pairs ->
  argparse.parse_args setup_argparse (argv_of pairs) tr
  = (Ret (only d (argparse.PyStr (List.last (List.map snd pairs) []))), tr).
Proof.
  intros Hne Hpairs. unfold argparse.parse_args, argparse.parse_known_args.
  rewrite (ParserRuns.classify_pairs d pairs Hpairs).
  destruct (ParserRuns.consume_pairs d pairs argparse.defaults tr)
    as [st' [Hrun [Hns [_ [Hin Hextras]]]]].
  { eapply Forall_impl; [exact Hpairs |]. cbn. tauto. }
  { intros a Ha. inversion Ha. }
  unfold bind at 1 2. rewrite Hrun.
  assert (existsb (fun a => argparse.in_seen a (argparse.seen_non_default_actions st'))
            (argparse.group_actions setup_argparse) = true) as Hreq.
  { apply existsb_exists. exists (argparse.Store d). split.
    - destruct d; cbn; tauto.
    - unfold argparse.in_seen. apply bool_decide_eq_true, Hin, Hne. }
  rewrite Hreq. cbn [argparse.group_required setup_argparse argparse.add_argument
                       argparse.add_mutually_exclusive_group andb negb].
  unfold ret at 1. cbv beta iota. rewrite Hextras. cbn [argparse.extras argparse.defaults].
  unfold ret. rewrite Hns. destruct pairs; [congruence | reflexivity].
Qed.

Lemma repeated_option_last_wins_run :
  argparse.parse_args setup_argparse
    (argv_of [(lit "-e", lit "a@b.com"); (lit "--email", lit "c@d.org")]) []
  = (Ret (only argparse.Email
            (argparse.PyStr
               (List.last
                  (List.map snd [(lit "-e", lit "a@b.com"); (lit "--email", lit "c@d.org")])
                  []))), []).
Proof.
  apply (repeated_option_last_wins argparse.Email
           [(lit "-e", lit "a@b.com"); (lit "--email", lit "c@d.org")] []).
  - discriminate.
  - repeat constructor.
Defined.

(** X18. A command line on which no string starts with a dash, the
    empty command line among them, is a usage error: the parser reports
    that one of the three options is required and the program ends with
    status 2. *)
Theorem no_option_exits_2 (net : network) (argv : list str) (tr : trace) :
  Forall (fun x => plain x = true) argv ->
  program net argv tr = (2, tr ++ [Argparse ArgOneRequired]).
Proof.
  intros Hplain. unfold program, main. cbv zeta.
  unfold bind at 1, argparse.parse_args. unfold bind at 1, argparse.parse_known_args.
  rewrite (ParserRuns.classify_all_plain argv Hplain).
  unfold bind at 1. rewrite ParserRuns.consume_all_plain. reflexivity.
Qed.

Lemma no_option_exits_2_run :
  program (answers 404 JNull) [lit "a@b.com"] [] = (2, [] ++ [Argparse ArgOneRequired]).
Proof.
  apply (no_option_exits_2 (answers 404 JNull) [lit "a@b.com"] []).
  repeat constructor.
Defined.

(** X19. An option of the group written with its argument after an
    equals sign, [--email=TEXT] or [-e=TEXT]: the parser stores the text
    as given, also when it is empty or starts with a dash; only the text
    [--] is not stored as it stands. *)
Theorem equals_form_stores_text
    (d : argparse.dest) (o v : str) (tr : trace) :
  o ∈ option_strings d ->
  v <> lit "--" ->
  argparse.parse_args setup_argparse [o ++ [chr "="] ++ v] tr
  = (Ret (only d (argparse.PyStr v)), tr).
Proof.
  intros Ho Hv.
  destruct (ParserRuns.equals_form_optional d o v Ho) as [Hdashes Hopt].
  unfold argparse.parse_args, argparse.parse_known_args.
  cbn [argparse.classify]. unfold str, char in *. rewrite Hdashes, Hopt.
  cbn [sum_map argparse.consume argparse.consume_optional].
  replace (argparse.with_explicit_arg setup_argparse (argparse.Store d) o v)
    with (inr ([argparse.TakeStore d o v], None)
          : argparse_message
            + list argparse.action_tuple * option (argparse.action * list N))
    by (destruct v; reflexivity).
  unfold bind. cbn [argparse.take_actions]. unfold bind.
  cbn [argparse.take_action].
  rewrite ParserRuns.same_option_no_conflict.
  2: { intros a Ha. apply list_elem_of_singleton in Ha. exact Ha. }
  unfold argparse.get_values, str_eqb.
  rewrite bool_decide_eq_false_2 by exact Hv.
  destruct d; reflexivity.
Qed.

Lemma equals_form_stores_text_run :
  argparse.parse_args setup_argparse [lit "--email" ++ [chr "="] ++ lit "-x@y.org"] []
  = (Ret (only argparse.Email (argparse.PyStr (lit "-x@y.org"))), []).
Proof.
  apply (equals_form_stores_text argparse.Email (lit "--email") (lit "-x@y.org") []).
  - apply list_elem_of_further, list_elem_of_here.
  - discriminate.
Defined.
